(** * GPS broadcast-ephemeris parser and orbit propagator (gps_navigation.py)

    A shallow embedding of the functions of [gps_navigation.py] and the
    properties its specification states about them.

    Conventions of the embedding.
    - Python [float] values are idealised as exact numbers: rationals [Q]
      where the code only adds, subtracts, multiplies, divides, compares and
      takes floors (time arithmetic, record selection, decimal literals),
      reals [R] from the first call of [sqrt], [sin] or [cos] on.  Rounding,
      overflow and signed zeros are outside that model; the literals [inf]
      and [nan] that [float()] accepts are kept as such ([pyfloat]).
    - Where rounding decides what the code returns, the sampling of
      [generate_time_sequence], the function is also given on binary64
      numbers ([Binary64]), operation for operation.
    - Python [int] is [Z]; [//] on it is [Z.div] (both round to the floor).
    - Text is made of 8-bit characters; a file is given by its contents,
      which stand for the path the Python functions open.  A missing or
      undecodable file is outside the model.
    - A raised exception is a value of [exn]; a function that can raise
      returns a [result].  The mutations a block performs on [nav_data] are
      lost with the dictionary when an exception leaves [parse_rinex_nav]. *)

From Stdlib Require Import PrimFloat SpecFloat FloatOps Uint63.
From Stdlib Require Import ZArith QArith Qround Qabs Qpower Reals Psatz Lia List Ascii String.
From Stdlib Require Import Qreals.
From stdpp Require Import gmap strings list fin_maps.

Close Scope Q_scope.

(** ** Python runtime: exceptions, strings, [int()] and [float()] *)

Module Py.

Inductive exn : Type :=
  | IndexError
  | ValueError
  | ZeroDivisionError.

(** [type(x).__name__] *)
Definition class_name (x : exn) : string :=
  match x with
  | IndexError => "IndexError"
  | ValueError => "ValueError"
  | ZeroDivisionError => "ZeroDivisionError"
  end.

Inductive result (A : Type) : Type :=
  | Ok (a : A)
  | Raise (x : exn).
Arguments Ok {A} a.
Arguments Raise {A} x.

#[global] Instance result_ret : MRet result := fun A a => Ok a.
#[global] Instance result_bind : MBind result := fun A B f r =>
  match r with
  | Ok a => f a
  | Raise x => Raise x
  end.
#[global] Instance result_fmap : FMap result := fun A B f r =>
  match r with
  | Ok a => Ok (f a)
  | Raise x => Raise x
  end.

Definition is_ok {A} (r : result A) : bool :=
  match r with
  | Ok _ => true
  | Raise _ => false
  end.

(** [for x in xs: ys.append(f(x))] where [f] may raise: the first exception
    in list order leaves the loop. *)
Fixpoint mapM {A B} (f : A → result B) (xs : list A) : result (list B) :=
  match xs with
  | [] => Ok []
  | x :: xs' => y ← f x; ys ← mapM f xs'; Ok (y :: ys)
  end.

Definition code (c : ascii) : nat := nat_of_ascii c.

(** [str.isspace] on code points below 256. *)
Definition is_space (c : ascii) : bool :=
  let n := code c in
  ((9 <=? n) && (n <=? 13)) || ((28 <=? n) && (n <=? 32))
  || (n =? 133) || (n =? 160).

Definition is_digit (c : ascii) : bool :=
  let n := code c in (48 <=? n) && (n <=? 57).

Definition is_sign (c : ascii) : bool :=
  let n := code c in (n =? 43) || (n =? 45).

Definition digit_val (c : ascii) : Z := (Z.of_nat (code c) - 48)%Z.

(** ASCII lower-casing, for the case-insensitive literals of [float()]. *)
Definition lower (c : ascii) : ascii :=
  let n := code c in
  if (65 <=? n) && (n <=? 90) then ascii_of_nat (n + 32) else c.

Fixpoint lstrip (cs : list ascii) : list ascii :=
  match cs with
  | c :: cs' => if is_space c then lstrip cs' else cs
  | [] => []
  end.

Definition strip_chars (cs : list ascii) : list ascii :=
  rev (lstrip (rev (lstrip cs))).

(** [s.strip()] *)
Definition strip (s : string) : string :=
  string_of_list_ascii (strip_chars (list_ascii_of_string s)).

(** [s[a:b]] for [0 <= a <= b]: out-of-range bounds are clipped, never an
    error. *)
Definition slice (a b : nat) (s : string) : string :=
  String.substring a (b - a) s.

(** [needle in hay] *)
Fixpoint contains (needle hay : string) : bool :=
  String.prefix needle hay ||
  match hay with
  | EmptyString => false
  | String _ hay' => contains needle hay'
  end.

(** [digitpart ::= digit (["_"] digit)*], read greedily; returns the value
    of the digits read so far, their number and the unread rest. *)
Fixpoint digitpart_tail (acc : Z) (n : nat) (cs : list ascii)
  : Z * nat * list ascii :=
  match cs with
  | c :: cs' =>
      if is_digit c then digitpart_tail (10 * acc + digit_val c)%Z (S n) cs'
      else if (code c =? 95)%nat then
        match cs' with
        | d :: cs'' =>
            if is_digit d
            then digitpart_tail (10 * acc + digit_val d)%Z (S n) cs''
            else (acc, n, cs)
        | [] => (acc, n, cs)
        end
      else (acc, n, cs)
  | [] => (acc, n, [])
  end.

Definition digitpart (cs : list ascii) : option (Z * nat * list ascii) :=
  match cs with
  | c :: cs' =>
      if is_digit c then Some (digitpart_tail (digit_val c) 1 cs') else None
  | [] => None
  end.

(** An optional leading sign: [true] for [-]. *)
Definition opt_sign (cs : list ascii) : bool * list ascii :=
  match cs with
  | c :: cs' =>
      if (code c =? 45)%nat then (true, cs')
      else if (code c =? 43)%nat then (false, cs')
      else (false, cs)
  | [] => (false, [])
  end.

(** [int(s)] in base 10. *)
Definition int (s : string) : result Z :=
  let (neg, cs) := opt_sign (strip_chars (list_ascii_of_string s)) in
  match digitpart cs with
  | Some (v, _, []) => Ok (if neg then (- v)%Z else v)
  | _ => Raise ValueError
  end.

Inductive pyfloat : Type :=
  | Finite (q : Q)
  | Inf (negative : bool)
  | NaN.

(** [number ::= [digitpart] "." digitpart | digitpart ["."]]: returns the
    digits as one integer with the number of fraction digits. *)
Definition number (cs : list ascii) : option (Z * nat * list ascii) :=
  match cs with
  | c :: cs' =>
      if (code c =? 46)%nat then
        match digitpart cs' with
        | Some (f, nf, rest) => Some (f, nf, rest)
        | None => None
        end
      else
        match digitpart cs with
        | Some (i, _, d :: rest) =>
            if (code d =? 46)%nat then
              match rest with
              | c1 :: rest1 =>
                  if is_digit c1
                  then let '(v, n, rest2) := digitpart_tail (10 * i + digit_val c1)%Z 1 rest1 in
                       Some (v, n, rest2)
                  else Some (i, O, rest)
              | [] => Some (i, O, [])
              end
            else Some (i, O, d :: rest)
        | Some (i, _, []) => Some (i, O, [])
        | None => None
        end
  | [] => None
  end.

(** [exponent ::= ("e" | "E") [sign] digitpart], optional. *)
Definition exponent (cs : list ascii) : option (Z * list ascii) :=
  match cs with
  | c :: cs' =>
      if (code (lower c) =? 101)%nat then
        let (neg, cs1) := opt_sign cs' in
        match digitpart cs1 with
        | Some (x, _, rest) => Some (if neg then (- x)%Z else x, rest)
        | None => None
        end
      else Some (0%Z, cs)
  | [] => Some (0%Z, [])
  end.

Definition lowercase (cs : list ascii) : string :=
  string_of_list_ascii (map lower cs).

(** [float(s)] *)
Definition float (s : string) : result pyfloat :=
  let (neg, cs) := opt_sign (strip_chars (list_ascii_of_string s)) in
  let w := lowercase cs in
  if (String.eqb w "inf" || String.eqb w "infinity")%bool then Ok (Inf neg)
  else if String.eqb w "nan" then Ok NaN
  else
    match number cs with
    | Some (m, nf, rest) =>
        match exponent rest with
        | Some (x, []) =>
            let q := (inject_Z m * Qpower (10 # 1) (x - Z.of_nat nf))%Q in
            Ok (Finite (Qred (if neg then (- q)%Q else q)))
        | _ => Raise ValueError
        end
    | None => Raise ValueError
    end.

End Py.

Import Py.

(** ** Step 2: the RINEX navigation parser *)

Module Parser.

Definition LF : ascii := ascii_of_nat 10.
Definition CR : ascii := ascii_of_nat 13.

Definition close_line (cur : list ascii) : string :=
  string_of_list_ascii (rev (LF :: cur)).

(** [file.readlines()] in text mode: every line keeps its end, and the
    ends [\r\n] and [\r] are read as [\n]; [cur] holds the characters of
    the line being read, last first. *)
Fixpoint readlines (cur : list ascii) (cs : list ascii) : list string :=
  match cs with
  | [] =>
      match cur with
      | [] => []
      | _ :: _ => [string_of_list_ascii (rev cur)]
      end
  | c :: cs' =>
      if (code c =? 10)%nat then close_line cur :: readlines [] cs'
      else if (code c =? 13)%nat then
        match cs' with
        | d :: cs'' =>
            if (code d =? 10)%nat then close_line cur :: readlines [] cs''
            else close_line cur :: readlines [] cs'
        | [] => [close_line cur]
        end
      else readlines (c :: cur) cs'
  end.

(** [read_file_lines(filepath)] *)
Definition read_file_lines (contents : string) : list string :=
  readlines [] (list_ascii_of_string contents).

Definition is_mantissa_char (c : ascii) : bool :=
  is_digit c || (code c =? 46)%nat.

Fixpoint span (p : ascii → bool) (cs : list ascii) : list ascii * list ascii :=
  match cs with
  | c :: cs' =>
      if p c then let (run, rest) := span p cs' in (c :: run, rest)
      else ([], cs)
  | [] => ([], [])
  end.

Definition take_sign (cs : list ascii) : list ascii * list ascii :=
  match cs with
  | c :: cs' => if is_sign c then ([c], cs') else ([], cs)
  | [] => ([], [])
  end.

(** One match of [[\-\+]?[0-9\.]+D[\-\+]?[0-9]+] at the head of [cs].  The
    pattern needs no backtracking: the greedy run of [[0-9\.]] never
    contains the [D] that must follow it, and a sign that was taken cannot
    start the run instead. *)
Definition match_number (cs : list ascii) : option (list ascii) :=
  let (sgn, cs1) := take_sign cs in
  let (mant, cs2) := span is_mantissa_char cs1 in
  match mant, cs2 with
  | _ :: _, d :: cs3 =>
      if (code d =? 68)%nat then
        let (esgn, cs4) := take_sign cs3 in
        let (ex, _) := span is_digit cs4 in
        match ex with
        | _ :: _ => Some (sgn ++ mant ++ d :: esgn ++ ex)
        | [] => None
        end
      else None
  | _, _ => None
  end.

(** The scan of [re.findall]: the leftmost match, then on from its end;
    [skip] counts the characters of the last match still to pass. *)
Fixpoint scan (skip : nat) (cs : list ascii) : list (list ascii) :=
  match cs with
  | [] => []
  | _ :: cs' =>
      match skip with
      | S k => scan k cs'
      | O =>
          match match_number cs with
          | Some tok => tok :: scan (length tok - 1) cs'
          | None => scan 0 cs'
          end
      end
  end.

(** [re.findall(r'[\-\+]?[0-9\.]+D[\-\+]?[0-9]+', ln)] *)
Definition findall (ln : string) : list string :=
  map string_of_list_ascii (scan 0 (list_ascii_of_string ln)).

(** [val.replace('D', 'E')] *)
Definition replace_D_E (val : string) : string :=
  string_of_list_ascii
    (map (fun c => if (code c =? 68)%nat then "E"%char else c)
         (list_ascii_of_string val)).

Definition fields : list string :=
  ["a0"; "a1"; "a2"; "IODC"; "Crs"; "deltan"; "M0";
   "Cuc"; "e"; "Cus"; "sqrt_a"; "toe"; "Cic"; "Omega0"; "Cis";
   "i0"; "Crc"; "omega"; "Omegadot"; "idot"; "L2"; "week";
   "L2_P"; "acc"; "health"; "TGD"; "IODC2"; "trans_time"; "spare"].

(** The values an entry holds: the timestamp's [int]s and the [float]s. *)
Inductive pyval : Type :=
  | PyInt (z : Z)
  | PyFloat (f : pyfloat).

(** The entry of one block, a [dict] from field name to value. *)
Abbreviation entry := (gmap string pyval).

(** [nav_data]: satellite identifier to its list of entries. *)
Abbreviation nav_data := (gmap string (list entry)).

(** [nav_data.setdefault(prn, [])] *)
Definition setdefault (prn : string) (nav : nav_data) : nav_data :=
  match nav !! prn with
  | Some _ => nav
  | None => <[prn := []]> nav
  end.

(** [nav_data[prn].append(entry)], after [setdefault]. *)
Definition append (prn : string) (en : entry) (nav : nav_data) : nav_data :=
  <[prn := default [] (nav !! prn) ++ [en]]> nav.

(** [[float(val.replace('D', 'E')) for val in numbers]] for one line. *)
Definition line_values (ln : string) : result (list pyfloat) :=
  mapM (fun val => float (replace_D_E val)) (findall ln).

(** The [for ln in block] loop that fills [values]. *)
Fixpoint block_values (block : list string) : result (list pyfloat) :=
  match block with
  | [] => Ok []
  | ln :: block' =>
      vs ← line_values ln; ws ← block_values block'; Ok (vs ++ ws)
  end.

(** All the tokens [re.findall] extracts from the lines of a block. *)
Definition block_tokens (block : list string) : list string :=
  concat (map findall block).

(** The six conversions of the timestamp columns of [block[0]]. *)
Definition timestamp (l0 : string) : result (Z * Z * Z * Z * Z * pyfloat) :=
  yr ← int (strip (slice 3 8 l0));
  mo ← int (strip (slice 8 11 l0));
  dy ← int (strip (slice 11 14 l0));
  hr ← int (strip (slice 14 17 l0));
  mn ← int (strip (slice 17 20 l0));
  sc ← float (strip (slice 20 23 l0));
  Ok (yr, mo, dy, hr, mn, sc).

(** [dict(zip(fields, values))] followed by [entry.update({...})]. *)
Definition make_entry (values : list pyfloat)
    (ts : Z * Z * Z * Z * Z * pyfloat) : entry :=
  let '(yr, mo, dy, hr, mn, sc) := ts in
  let en : entry := list_to_map (zip fields (PyFloat <$> values)) in
  let en := <["year" := PyInt yr]> en in
  let en := <["month" := PyInt mo]> en in
  let en := <["day" := PyInt dy]> en in
  let en := <["hour" := PyInt hr]> en in
  let en := <["minute" := PyInt mn]> en in
  <["second" := PyFloat sc]> en.

(** The body of the [while len(lines) >= 8] loop on one block of 8 lines. *)
Definition process_block (block : list string) (nav : nav_data)
  : result nav_data :=
  let l0 := hd EmptyString block in
  let prn := strip (slice 0 3 l0) in
  if String.eqb prn EmptyString then Ok nav
  else
    let nav := setdefault prn nav in
    ts ← timestamp l0;
    values ← block_values block;
    if (length values <? length fields)%nat then Ok nav
    else Ok (append prn (make_entry values ts) nav).

(** The block loop; a trailing run of fewer than 8 lines ends it. *)
Fixpoint parse_blocks (lines : list string) (nav : nav_data)
  : result nav_data :=
  match lines with
  | l0 :: l1 :: l2 :: l3 :: l4 :: l5 :: l6 :: l7 :: rest =>
      nav' ← process_block [l0; l1; l2; l3; l4; l5; l6; l7] nav;
      parse_blocks rest nav'
  | _ => Ok nav
  end.

(** [while 'END OF HEADER' not in lines[0]: lines.pop(0)] and the
    [lines.pop(0)] after it; [lines[0]] on the emptied list raises. *)
Fixpoint skip_header (lines : list string) : result (list string) :=
  match lines with
  | [] => Raise IndexError
  | l :: rest =>
      if contains "END OF HEADER" l then Ok rest else skip_header rest
  end.

(** [parse_rinex_nav(filepath)], on the contents of the file. *)
Definition parse_rinex_nav (contents : string) : result nav_data :=
  let lines := read_file_lines contents in
  body ← skip_header lines;
  parse_blocks body ∅.

(** The timestamp columns and every extracted token of the block convert. *)
Definition converts (block : list string) : bool :=
  is_ok (timestamp (hd EmptyString block)) && is_ok (block_values block).

(** The identifier columns of the block's first line. *)
Definition block_prn (block : list string) : string :=
  strip (slice 0 3 (hd EmptyString block)).

End Parser.

(** ** Step 3: time conversion and sampling *)

Module Time.

(** [x < y] on floats. *)
Definition Qltb (x y : Q) : bool := negb (Qle_bool y x).

(** [x % m] on floats for a positive constant [m]: the remainder has the
    sign of [m], that is [x - m * floor(x / m)]. *)
Definition py_mod (x m : Q) : Q := (x - m * inject_Z (Qfloor (x / m)))%Q.

(** [convert_to_gps_seconds(y, m, d, h, mi, s)] with the [int]s of a parsed
    timestamp and its [float] second. *)
Definition convert_to_gps_seconds (y m d h mi : Z) (s : Q) : Q :=
  let a := ((14 - m) / 12)%Z in
  let y_new := (y + 4800 - a)%Z in
  let m_new := (m + 12 * a - 3)%Z in
  let jd := (d + ((153 * m_new + 2) / 5) + 365 * y_new + y_new / 4
             - y_new / 100 + y_new / 400 - 32045)%Z in
  let jd := (inject_Z jd
             + (inject_Z (h - 12) / 24 + inject_Z mi / 1440 + s / 86400))%Q in
  py_mod ((jd - (4888489 # 2)) * 86400)%Q (7 * 86400)%Q.

(** [numpy.arange(start, stop, step)] on floats, as its reference gives it:
    the [ceil((stop - start) / step)] values [start + i * step], none when
    that length is not positive; with a zero step the division that gives
    the length raises. *)
Definition np_arange (start stop step : Q) : result (list Q) :=
  if Qeq_bool step 0 then Raise ZeroDivisionError
  else
    let n := Z.to_nat (Qceiling ((stop - start) / step)) in
    Ok (map (fun i => (start + inject_Z (Z.of_nat i) * step)%Q) (seq 0 n)).

(** The tolerance [1e-9] added to [end]. *)
Definition end_tolerance : Q := 1 # 1000000000.

(** [generate_time_sequence(start, end, dt)] *)
Definition generate_time_sequence (start end_ dt : Q) : result (list Q) :=
  np_arange start (end_ + end_tolerance)%Q dt.

(** The epoch of index [i]. *)
Definition epoch (start dt : Q) (i : nat) : Q :=
  (start + inject_Z (Z.of_nat i) * dt)%Q.

End Time.

(** ** Step 3 on binary64 numbers: the sampling as numpy computes it *)

Module Binary64.

Abbreviation binary64 := PrimFloat.float.

(** The exact value of a finite number. *)
Definition value (x : binary64) : option Q :=
  match Prim2SF x with
  | S754_zero _ => Some 0%Q
  | S754_finite s m e =>
      Some ((if s then - inject_Z (Zpos m) else inject_Z (Zpos m))
            * Qpower (2 # 1) e)%Q
  | S754_infinity _ => None
  | S754_nan => None
  end.

Definition is_zero (x : binary64) : bool :=
  match Prim2SF x with S754_zero _ => true | _ => false end.

Definition is_negative_zero (x : binary64) : bool :=
  match Prim2SF x with S754_zero s => s | _ => false end.

(** The index [i] of the fill loop as a [double]. *)
Definition of_index (i : nat) : binary64 :=
  PrimFloat.of_uint63 (Uint63.of_Z (Z.of_nat i)).

(** The literal [1e-9]. *)
Definition tolerance : binary64 := 0x1.12e0be826d695p-30%float.

(** The item of index [i] of [arange(start, stop, step)]: [start], then
    [next = start + step], then the fill loop [start + i*delta] with
    [delta = next - start]. *)
Definition element (start step : binary64) (i : nat) : binary64 :=
  match i with
  | O => start
  | S O => (start + step)%float
  | _ => (start + of_index i * ((start + step) - start))%float
  end.

(** The bounds of [npy_intp] as the length test compares them, as
    [double]s. *)
Definition min_intp : Z := (- 2 ^ 63)%Z.
Definition max_intp : Z := (2 ^ 63)%Z.

(** [numpy.arange(start, stop, step)] on Python floats.  The length is
    [ceil((stop - start) / step)], the quotient being a Python division
    (it raises on a zero step): a quotient that is not a number, or whose
    ceiling is not an index, is a [ValueError]; a quotient that
    underflowed to zero still gives one item, or none if it is a negative
    zero; a length that is not positive gives the empty array.  The
    allocation of the array is not modelled. *)
Definition np_arange (start stop step : binary64)
  : result (list binary64) :=
  let next := (stop - start)%float in
  if is_zero step then Raise ZeroDivisionError
  else
    let val := (next / step)%float in
    match value val with
    | None => Raise ValueError
    | Some v =>
        let len := Qceiling v in
        if (len <? min_intp)%Z || (max_intp <? len)%Z
        then Raise ValueError
        else
          let len :=
            if is_zero val && negb (is_zero next)
            then (if is_negative_zero val then 0%Z else 1%Z)
            else len in
          Ok (map (element start step) (seq 0 (Z.to_nat len)))
    end.

(** [generate_time_sequence(start, end, dt)] *)
Definition generate_time_sequence (start end_ dt : binary64)
  : result (list binary64) :=
  np_arange start (end_ + tolerance)%float dt.

End Binary64.

(** ** Step 4: Kepler's equation *)

Module Kepler.

(** [1 - e*cos(E)], the divisor of the update. *)
Definition denominator (e E : R) : R := (1 - e * cos E)%R.

(** [E - (E - e*sin(E) - M) / (1 - e*cos(E))]; a float division by zero
    raises. *)
Definition update (M e E : R) : result R :=
  if Req_dec_T (denominator e E) 0 then Raise ZeroDivisionError
  else Ok (E - (E - e * sin E - M) / denominator e E)%R.

(** The [for _ in range(max_iter)] loop, entered with estimate [E]. *)
Fixpoint iterate (M e tol : R) (max_iter : nat) (E : R) : result R :=
  match max_iter with
  | O => Ok E
  | S k =>
      E_next ← update M e E;
      if Rlt_dec (Rabs (E_next - E)) tol then Ok E
      else iterate M e tol k E_next
  end.

(** [solve_kepler(M, e, tol, max_iter)] *)
Definition solve_kepler_with (M e tol : R) (max_iter : nat) : result R :=
  iterate M e tol max_iter M.

Definition default_tol : R := (1 / 10 ^ 12)%R.
Definition default_max_iter : nat := 10.

(** [solve_kepler(M, e)] with the default [tol=1e-12, max_iter=10]. *)
Definition solve_kepler (M e : R) : result R :=
  solve_kepler_with M e default_tol default_max_iter.

(** The same loop with a counter of the updates it evaluates, kept also
    when the loop is left by an exception. *)
Fixpoint iterate_count (M e tol : R) (max_iter : nat) (E : R)
  : result R * nat :=
  match max_iter with
  | O => (Ok E, O)
  | S k =>
      match update M e E with
      | Raise x => (Raise x, 1%nat)
      | Ok E_next =>
          if Rlt_dec (Rabs (E_next - E)) tol then (Ok E, 1%nat)
          else let (r, c) := iterate_count M e tol k E_next in (r, S c)
      end
  end.

(** [steps M e tol k E E']: starting from estimate [E], the loop performs
    [k] updates, none of which meets the tolerance, and holds [E'] after
    them. *)
Inductive steps (M e tol : R) : nat → R → R → Prop :=
  | steps_O E : steps M e tol O E E
  | steps_S k E E1 E' :
      update M e E = Ok E1 →
      ¬ (Rabs (E1 - E) < tol)%R →
      steps M e tol k E1 E' →
      steps M e tol (S k) E E'.

End Kepler.

(** ** Step 4: the orbit propagator *)

Module Propagator.

Import Time Kepler.

(** The keys of an entry that [compute_positions] reads, as exact numbers. *)
Record EphemerisRecord : Type := {
  sqrt_a : Q; e : Q; M0 : Q; toe : Q; deltan : Q; omega : Q;
  Cus : Q; Cuc : Q; Crs : Q; Crc : Q; i0 : Q; idot : Q;
  Cis : Q; Cic : Q; Omega0 : Q; Omegadot : Q
}.

Definition MU : Q := 398600500000000.
Definition OMEGA_EARTH : Q := 72921151467 # 1000000000000000.

(** [min(xs, key=key)]: the running best is replaced only by an item whose
    key is strictly smaller; an empty sequence raises. *)
Fixpoint min_from {A} (key : A → Q) (best : A) (xs : list A) : A :=
  match xs with
  | [] => best
  | x :: xs' =>
      if Qltb (key x) (key best) then min_from key x xs'
      else min_from key best xs'
  end.

Definition py_min {A} (key : A → Q) (xs : list A) : result A :=
  match xs with
  | [] => Raise ValueError
  | x :: xs' => Ok (min_from key x xs')
  end.

(** [abs(t - r['toe'])], the key of the selection. *)
Definition distance (t : Q) (r : EphemerisRecord) : Q := Qabs (t - toe r).

(** [eph = min(records, key=lambda r: abs(t - r['toe']))] *)
Definition select (records : list EphemerisRecord) (t : Q)
  : result EphemerisRecord :=
  py_min (distance t) records.

(** [tk = t - toe] and the two week-rollover corrections after it. *)
Definition time_from_ephemeris (t toe : Q) : Q :=
  let tk := (t - toe)%Q in
  let tk := if Qltb 302400 tk then (tk - 604800)%Q else tk in
  if Qltb tk (-302400) then (tk + 604800)%Q else tk.

(** [math.sqrt]: a negative argument is a domain error. *)
Definition py_sqrt (x : R) : result R :=
  if Rlt_dec x 0 then Raise ValueError else Ok (sqrt x).

(** Float division. *)
Definition py_div (x y : R) : result R :=
  if Req_dec_T y 0 then Raise ZeroDivisionError else Ok (x / y)%R.

(** [math.atan2(y, x)] *)
Definition atan2 (y x : R) : R :=
  if Rlt_dec 0 x then atan (y / x)
  else if Rlt_dec x 0 then
    if Rlt_dec y 0 then (atan (y / x) - PI)%R else (atan (y / x) + PI)%R
  else if Rlt_dec 0 y then (PI / 2)%R
  else if Rlt_dec y 0 then (- PI / 2)%R
  else 0%R.

(** The body of the [for t in times] loop after the selection of [eph],
    for epochs that are Python floats.  (On the numpy epochs of
    [generate_time_sequence] a zero divisor inside [solve_kepler] gives
    [inf] or [nan], which are no values of this model, instead of an
    exception.) *)
Definition position (eph : EphemerisRecord) (t : Q) : result (Q * R * R * R) :=
  let a := Q2R (sqrt_a eph ^ 2) in
  let e := Q2R (e eph) in
  let tk := Q2R (time_from_ephemeris t (toe eph)) in
  q ← py_div (Q2R MU) (a ^ 3);
  n0 ← py_sqrt q;
  let n := (n0 + Q2R (deltan eph))%R in
  let M := (Q2R (M0 eph) + n * tk)%R in
  E ← solve_kepler M e;
  s ← py_sqrt (1 - e ^ 2);
  let v := atan2 (s * sin E) (cos E - e) in
  let phi := (v + Q2R (omega eph))%R in
  let u := (phi + Q2R (Cus eph) * sin (2 * phi)
            + Q2R (Cuc eph) * cos (2 * phi))%R in
  let r := (a * (1 - e * cos E) + Q2R (Crs eph) * sin (2 * phi)
            + Q2R (Crc eph) * cos (2 * phi))%R in
  let i := (Q2R (i0 eph) + Q2R (idot eph) * tk
            + Q2R (Cis eph) * sin (2 * phi)
            + Q2R (Cic eph) * cos (2 * phi))%R in
  let Omega := (Q2R (Omega0 eph)
                + (Q2R (Omegadot eph) - Q2R OMEGA_EARTH) * tk
                - Q2R OMEGA_EARTH * Q2R (toe eph))%R in
  let x_prime := (r * cos u)%R in
  let y_prime := (r * sin u)%R in
  let x := (x_prime * cos Omega - y_prime * cos i * sin Omega)%R in
  let y := (x_prime * sin Omega + y_prime * cos i * cos Omega)%R in
  let z := (y_prime * sin i)%R in
  Ok (t, x, y, z).

(** [compute_positions(records, times)] *)
Definition compute_positions (records : list EphemerisRecord)
    (times : list Q) : result (list (Q * R * R * R)) :=
  mapM (fun t => eph ← select records t; position eph t) times.

End Propagator.

(** ** Sample inputs *)

Module Samples.

Import Propagator.

(** A file without the header terminator. *)
Definition headerless_file : string :=
"     3.04           N: GNSS NAV DATA    G: GPS
G01 2024 01 01 00 00 00-2.3D-04 1.0D-11 0.0D+00
     1.0D+00 2.0D+00 3.0D+00 4.0D+00
".

(** A file whose only block holds one token, which the pattern extracts
    and [float()] refuses. *)
Definition bad_token_file : string :=
"     3.04           N: GNSS NAV DATA    G: GPS
                                                            END OF HEADER
G01 2024 01 01 00 00 00 1.2.3D+01
     1.0D+00
     2.0D+00
     3.0D+00
     4.0D+00
     5.0D+00
     6.0D+00
     7.0D+00
".

(** A file whose only block holds an identifier and nothing else. *)
Definition bare_identifier_file : string :=
"                                                            END OF HEADER
G01







".

(** A file whose only block has a well-formed first line and no token. *)
Definition malformed_only_file : string :=
"     3.04           N: GNSS NAV DATA    G: GPS
                                                            END OF HEADER
G01 2024 01 01 00 00 00







".

(** A record of a circular orbit with reference time [toe]. *)
Definition record_at (toe : Q) : EphemerisRecord :=
  {| sqrt_a := 5153; e := 0; M0 := 0; toe := toe; deltan := 0; omega := 0;
     Cus := 0; Cuc := 0; Crs := 0; Crc := 0; i0 := 0; idot := 0;
     Cis := 0; Cic := 0; Omega0 := 0; Omegadot := 0 |}.

(** Epoch 3600 is as far from the second record as from the first and
    third. *)
Definition tied_records : list EphemerisRecord :=
  [record_at 14400; record_at 7200; record_at 0; record_at 7200].

End Samples.

(** ** Steps 3 and 6: time bounds and the sampling of one satellite *)

Module Pipeline.

Import Time Kepler Propagator.

(** [max(xs)]: the running best is replaced only by a strictly greater
    item; an empty sequence raises. *)
Fixpoint max_from (best : Q) (xs : list Q) : Q :=
  match xs with
  | [] => best
  | x :: xs' =>
      if Qltb best x then max_from x xs' else max_from best xs'
  end.

Definition py_max (xs : list Q) : result Q :=
  match xs with
  | [] => Raise ValueError
  | x :: xs' => Ok (max_from x xs')
  end.

(** [get_time_bounds(prn_data)] *)
Definition get_time_bounds (prn_data : list EphemerisRecord)
  : result (Q * Q) :=
  let toes := map toe prn_data in
  lo ← py_min (λ x, x) toes;
  hi ← py_max toes;
  Ok (lo, hi).

(** [start, end = get_time_bounds(records)],
    [times = generate_time_sequence(start, end, dt)] and
    [coords = compute_positions(records, times)]: the computation of
    [process_single_prn] (with [dt = 30]) and of [GNSSGui.process_selected]
    on the records of one satellite. *)
Definition sample_times (records : list EphemerisRecord) (dt : Q)
  : result (list Q) :=
  bounds ← get_time_bounds records;
  generate_time_sequence (fst bounds) (snd bounds) dt.

Definition sample_positions (records : list EphemerisRecord) (dt : Q)
  : result (list (Q * R * R * R)) :=
  times ← sample_times records dt;
  compute_positions records times.

(** The epoch of a sample [(t, x, y, z)]. *)
Definition sample_epoch (p : Q * R * R * R) : Q :=
  let '(t, _, _, _) := p in t.

End Pipeline.

(** ** What the block loop stores, block by block *)

Module ParserSpec.

Import Parser.

(** The 8-line blocks the loop takes from the lines after the header. *)
Fixpoint blocks (lines : list string) : list (list string) :=
  match lines with
  | l0 :: l1 :: l2 :: l3 :: l4 :: l5 :: l6 :: l7 :: rest =>
      [l0; l1; l2; l3; l4; l5; l6; l7] :: blocks rest
  | _ => []
  end.

(** The entry a block contributes, with its identifier: none for a blank
    identifier, a failed conversion or fewer values than fields. *)
Definition block_entry (block : list string) : option (string * entry) :=
  if String.eqb (block_prn block) EmptyString then None
  else
    match timestamp (hd EmptyString block), block_values block with
    | Ok ts, Ok values =>
        if (length values <? length fields)%nat then None
        else Some (block_prn block, make_entry values ts)
    | _, _ => None
    end.

(** The entries the blocks contribute to satellite [prn], in file order. *)
Definition entries_of (prn : string) (bs : list (list string)) : list entry :=
  omap (λ b, match block_entry b with
             | Some (p, en) => if String.eqb p prn then Some en else None
             | None => None
             end) bs.

(** The six keys [entry.update] adds. *)
Definition timestamp_keys : list string :=
  ["year"; "month"; "day"; "hour"; "minute"; "second"].

End ParserSpec.

Module Samples2.

Import Propagator.

(** A record whose [sqrt_a] is zero. *)
Definition degenerate_record : EphemerisRecord :=
  {| sqrt_a := 0; e := 0; M0 := 0; toe := 0; deltan := 0; omega := 0;
     Cus := 0; Cuc := 0; Crs := 0; Crc := 0; i0 := 0; idot := 0;
     Cis := 0; Cic := 0; Omega0 := 0; Omegadot := 0 |}.

End Samples2.

(** ** Records and epochs of ordinary magnitude *)

Module Ranges.

Import Propagator.

(** The bound [1e9] on the magnitude of an element or of an epoch. *)
Definition magnitude : Q := 1000000000.

(** A record whose [sqrt_a] is between [1e-3] and [1e6] in magnitude,
    whose eccentricity is in [[0, 1)] and whose other elements are at most
    [1e9] in magnitude.  With such a record and an epoch within the same
    bound every operation of [compute_positions] stays far from the
    overflow and underflow thresholds of binary64. *)
Definition ordinary (eph : EphemerisRecord) : Prop :=
  (1 # 1000 <= Qabs (sqrt_a eph) <= 1000000)%Q
  ∧ (0 <= e eph < 1)%Q
  ∧ Forall (λ v, (Qabs v <= magnitude)%Q)
      [M0 eph; toe eph; deltan eph; omega eph; Cus eph; Cuc eph; Crs eph;
       Crc eph; i0 eph; idot eph; Cis eph; Cic eph; Omega0 eph;
       Omegadot eph].

End Ranges.

(** * Properties *)

(** ** The parser *)

Module ParserFacts.

Import Parser Samples.

Lemma bind_Ok {A B} (r : result A) (f : A → result B) (a : A) :
  r = Ok a → (r ≫= f) = f a.
Proof. intros ->. reflexivity. Qed.

Lemma bind_Raise {A B} (r : result A) (f : A → result B) (x : exn) :
  r = Raise x → (r ≫= f) = Raise x.
Proof. intros ->. reflexivity. Qed.

Lemma is_ok_Ok {A} (r : result A) : is_ok r = true → ∃ a, r = Ok a.
Proof. destruct r; [eauto | discriminate]. Qed.

Lemma skip_header_exhausted (lines : list string) :
  Forall (λ l, contains "END OF HEADER" l = false) lines →
  skip_header lines = Raise IndexError.
Proof.
  induction 1 as [| l lines Hl _ IH]; simpl; [reflexivity |].
  rewrite Hl. exact IH.
Qed.

Lemma parse_header_exhausted (contents : string) :
  Forall (λ l, contains "END OF HEADER" l = false)
         (read_file_lines contents) →
  parse_rinex_nav contents = Raise IndexError.
Proof.
  intros H. unfold parse_rinex_nav.
  rewrite (bind_Raise _ _ _ (skip_header_exhausted _ H)). reflexivity.
Qed.

(** [C1, as stated, fails] The exception of a file without header
    terminator is an [IndexError], not a [FormatError]: no exception the
    code raises is of a class of that name. *)
Lemma missing_terminator_not_format_error :
  (∃ x : exn,
     parse_rinex_nav headerless_file = Raise x
     ∧ class_name x = "IndexError"
     ∧ class_name x ≠ "FormatError")
  ∧ ∀ x : exn, class_name x ≠ "FormatError".
Proof.
  split.
  - exists IndexError. split; [| split; [reflexivity | discriminate]].
    apply parse_header_exhausted. vm_compute. repeat constructor.
  - intros []; discriminate.
Qed.

(** [C1, amended] A file none of whose lines contains the header
    terminator makes [parse_rinex_nav] abort with [IndexError] (raised by
    [lines[0]] on the emptied list): no ephemeris set, partial or not, is
    returned. *)
Theorem parse_without_terminator_aborts (contents : string) :
  Forall (λ l, contains "END OF HEADER" l = false)
         (read_file_lines contents) →
  parse_rinex_nav contents = Raise IndexError
  ∧ ∀ nav, parse_rinex_nav contents ≠ Ok nav.
Proof.
  intros H. unfold parse_rinex_nav.
  rewrite (bind_Raise _ _ _ (skip_header_exhausted _ H)).
  split; [reflexivity | discriminate].
Qed.

Lemma parse_without_terminator_aborts_witness :
  parse_rinex_nav headerless_file = Raise IndexError
  ∧ ∀ nav, parse_rinex_nav headerless_file ≠ Ok nav.
Proof.
  apply parse_without_terminator_aborts.
  vm_compute. repeat constructor.
Defined.

Lemma mapM_length {A B} (f : A → result B) (xs : list A) (ys : list B) :
  mapM f xs = Ok ys → length ys = length xs.
Proof.
  revert ys. induction xs as [| x xs IH]; simpl; intros ys H.
  - injection H as <-. reflexivity.
  - destruct (f x) as [y | ]; [| discriminate]. simpl in H.
    destruct (mapM f xs) as [zs | ]; [| discriminate]. simpl in H.
    injection H as <-. simpl. f_equal. apply IH. reflexivity.
Qed.

(** As many values are converted as [re.findall] extracted tokens. *)
Lemma block_values_length (block : list string) (values : list pyfloat) :
  block_values block = Ok values →
  length values = length (block_tokens block).
Proof.
  revert values. unfold block_tokens.
  induction block as [| ln block IH]; simpl; intros values H.
  - injection H as <-. reflexivity.
  - destruct (line_values ln) as [vs | ] eqn:Hvs; [| discriminate]. simpl in H.
    destruct (block_values block) as [ws | ]; [| discriminate]. simpl in H.
    injection H as <-. rewrite !length_app. f_equal.
    + unfold line_values in Hvs. apply (mapM_length _ _ _ Hvs).
    + apply IH. reflexivity.
Qed.

(** [setdefault] changes no satellite's sequence of records. *)
Lemma setdefault_records (prn k : string) (nav : nav_data) :
  default [] (setdefault prn nav !! k) = default [] (nav !! k).
Proof.
  unfold setdefault. destruct (nav !! prn) eqn:Hp; [reflexivity |].
  destruct (decide (prn = k)) as [<- | Hne].
  - rewrite lookup_insert_eq, Hp. reflexivity.
  - rewrite lookup_insert_ne by exact Hne. reflexivity.
Qed.

Lemma setdefault_registers (prn : string) (nav : nav_data) :
  setdefault prn nav !! prn = Some (default [] (nav !! prn)).
Proof.
  unfold setdefault. destruct (nav !! prn) eqn:Hp.
  - rewrite Hp. reflexivity.
  - rewrite lookup_insert_eq. reflexivity.
Qed.

(** A block with an identifier, whose conversions succeed and which yields
    fewer tokens than there are fields, only registers its identifier. *)
Lemma process_short_block (block : list string) (nav : nav_data) :
  block_prn block ≠ EmptyString →
  converts block = true →
  (length (block_tokens block) < length fields)%nat →
  process_block block nav = Ok (setdefault (block_prn block) nav).
Proof.
  intros Hprn Hconv Hshort. unfold process_block. fold (block_prn block).
  destruct (String.eqb_spec (block_prn block) EmptyString) as [Heq | _];
    [contradiction |].
  apply andb_prop in Hconv as [Hts Hvs].
  apply is_ok_Ok in Hts as [ts Hts]. apply is_ok_Ok in Hvs as [vs Hvs].
  rewrite Hts, Hvs. simpl.
  rewrite (block_values_length _ _ Hvs).
  change (length fields) with 29%nat in Hshort.
  apply Nat.ltb_lt in Hshort. rewrite Hshort. reflexivity.
Qed.

Lemma process_blank_block (block : list string) (nav : nav_data) :
  block_prn block = EmptyString → process_block block nav = Ok nav.
Proof.
  intros H. unfold process_block. fold (block_prn block). rewrite H.
  reflexivity.
Qed.

(** The only exception of [int()] and [float()] is [ValueError]. *)
Lemma int_raises (s : string) (x : exn) : int s = Raise x → x = ValueError.
Proof.
  unfold int. intros H.
  repeat (case_match; try discriminate); congruence.
Qed.

Lemma float_raises (s : string) (x : exn) :
  float s = Raise x → x = ValueError.
Proof.
  unfold float. intros H.
  repeat (case_match; try discriminate); congruence.
Qed.

Lemma mapM_raises {A B} (f : A → result B) (xs : list A) (x : exn) :
  (∀ a y, f a = Raise y → y = ValueError) →
  mapM f xs = Raise x → x = ValueError.
Proof.
  intros Hf. induction xs as [| a xs IH]; simpl; [discriminate |].
  destruct (f a) as [b | y] eqn:Hfa; simpl.
  - destruct (mapM f xs) as [ys | y]; simpl; [discriminate |].
    intros [= <-]. apply IH. reflexivity.
  - intros [= <-]. apply (Hf a y Hfa).
Qed.

Lemma block_values_raises (block : list string) (x : exn) :
  block_values block = Raise x → x = ValueError.
Proof.
  induction block as [| ln block IH]; simpl; [discriminate |].
  destruct (line_values ln) as [vs | y] eqn:Hl; simpl.
  - destruct (block_values block) as [ws | y]; simpl; [discriminate |].
    intros [= <-]. apply IH. reflexivity.
  - intros [= <-]. unfold line_values in Hl.
    apply (mapM_raises _ _ _ (λ a, float_raises (replace_D_E a)) Hl).
Qed.

Lemma timestamp_raises (l0 : string) (x : exn) :
  timestamp l0 = Raise x → x = ValueError.
Proof.
  unfold timestamp. intros H.
  repeat match type of H with
  | (int ?s ≫= _) = _ =>
      let E := fresh "E" in
      destruct (int s) as [? | ?] eqn:E; simpl in H;
      [| injection H as <-; apply (int_raises _ _ E)]
  | (float ?s ≫= _) = _ =>
      let E := fresh "E" in
      destruct (float s) as [? | ?] eqn:E; simpl in H;
      [| injection H as <-; apply (float_raises _ _ E)]
  end.
  discriminate.
Qed.

(** A block with an identifier one of whose conversions fails aborts the
    parse, however many tokens it holds. *)
Lemma process_unconvertible_block (block : list string) (nav : nav_data) :
  block_prn block ≠ EmptyString →
  converts block = false →
  process_block block nav = Raise ValueError.
Proof.
  intros Hprn Hconv. unfold process_block. fold (block_prn block).
  destruct (String.eqb_spec (block_prn block) EmptyString) as [Heq | _];
    [contradiction |].
  unfold converts in Hconv.
  destruct (timestamp (hd EmptyString block)) as [ts | x] eqn:Hts.
  - destruct (block_values block) as [vs | x] eqn:Hvs; [discriminate |].
    simpl. f_equal. apply (block_values_raises _ _ Hvs).
  - simpl. f_equal. apply (timestamp_raises _ _ Hts).
Qed.

Lemma parse_blocks_step (l0 l1 l2 l3 l4 l5 l6 l7 : string)
    (rest : list string) (nav nav' : nav_data) :
  process_block [l0; l1; l2; l3; l4; l5; l6; l7] nav = Ok nav' →
  parse_blocks ([l0; l1; l2; l3; l4; l5; l6; l7] ++ rest) nav
  = parse_blocks rest nav'.
Proof. intros H. simpl. rewrite H. reflexivity. Qed.

(** [C4, amended] An 8-line block from which fewer than 29 tokens are
    extracted, and whose identifier is blank or whose timestamp columns and
    tokens all convert, is dropped without an error: the block loop goes on
    with the next block, and no satellite has a record more than before
    (the identifier of the block, when it is new, is registered with an
    empty sequence). *)
Theorem short_block_silently_discarded
    (l0 l1 l2 l3 l4 l5 l6 l7 : string) (rest : list string)
    (nav : nav_data) :
  let block := [l0; l1; l2; l3; l4; l5; l6; l7] in
  (length (block_tokens block) < 29)%nat →
  block_prn block = EmptyString ∨ converts block = true →
  ∃ nav',
    process_block block nav = Ok nav'
    ∧ (∀ prn, default [] (nav' !! prn) = default [] (nav !! prn))
    ∧ parse_blocks (block ++ rest) nav = parse_blocks rest nav'.
Proof.
  intros block Hshort Hconv.
  destruct (decide (block_prn block = EmptyString)) as [Hblank | Hprn].
  - exists nav. pose proof (process_blank_block block nav Hblank) as Hp.
    split; [exact Hp |]. split; [reflexivity |].
    apply parse_blocks_step, Hp.
  - destruct Hconv as [Hblank | Hconv]; [contradiction |].
    exists (setdefault (block_prn block) nav).
    pose proof (process_short_block block nav Hprn Hconv Hshort) as Hp.
    split; [exact Hp |]. split; [intros prn; apply setdefault_records |].
    apply parse_blocks_step, Hp.
Qed.

Lemma short_block_silently_discarded_witness :
  ∃ nav',
    process_block
      ["G01 2024 01 01 00 00 00-2.3D-04 1.0D-11 0.0D+00"; "     1.0D+00";
       "     2.0D+00"; "     3.0D+00"; "     4.0D+00"; "     5.0D+00";
       "     6.0D+00"; "     7.0D+00"] ∅ = Ok nav'
    ∧ (∀ prn, default [] (nav' !! prn) = default [] ((∅ : nav_data) !! prn))
    ∧ parse_blocks
        (["G01 2024 01 01 00 00 00-2.3D-04 1.0D-11 0.0D+00"; "     1.0D+00";
          "     2.0D+00"; "     3.0D+00"; "     4.0D+00"; "     5.0D+00";
          "     6.0D+00"; "     7.0D+00"] ++ []) ∅
      = parse_blocks [] nav'.
Proof.
  apply (short_block_silently_discarded
           "G01 2024 01 01 00 00 00-2.3D-04 1.0D-11 0.0D+00" "     1.0D+00"
           "     2.0D+00" "     3.0D+00" "     4.0D+00" "     5.0D+00"
           "     6.0D+00" "     7.0D+00" [] ∅).
  - vm_compute. lia.
  - right. vm_compute. reflexivity.
Defined.

(** [C4, as stated, fails] Blocks with fewer than 29 tokens that are not
    dropped silently: the conversion of a token, or of an empty timestamp
    column, raises [ValueError] and the parse is aborted. *)
Lemma short_block_raises :
  (∃ hdr1 hdr2 block,
     read_file_lines bad_token_file = hdr1 :: hdr2 :: block
     ∧ length block = 8%nat
     ∧ length (block_tokens block) = 8%nat
     ∧ process_block block ∅ = Raise ValueError)
  ∧ parse_rinex_nav bad_token_file = Raise ValueError
  ∧ (∃ hdr block,
       read_file_lines bare_identifier_file = hdr :: block
       ∧ length block = 8%nat
       ∧ length (block_tokens block) = 0%nat
       ∧ process_block block ∅ = Raise ValueError)
  ∧ parse_rinex_nav bare_identifier_file = Raise ValueError.
Proof.
  split; [| split; [| split]].
  - eexists _, _, _. split; [vm_compute; reflexivity |].
    split; [reflexivity |]. split; vm_compute; reflexivity.
  - vm_compute. reflexivity.
  - eexists _, _. split; [vm_compute; reflexivity |].
    split; [reflexivity |]. split; vm_compute; reflexivity.
  - vm_compute. reflexivity.
Qed.

(** [C5] Some input makes [parse_rinex_nav] return a mapping in which a
    satellite identifier has an empty sequence of records: the identifier
    of a block is registered before the count of its tokens discards the
    block. *)
Theorem identifier_with_no_record :
  ∃ (contents prn : string) (nav : nav_data),
    parse_rinex_nav contents = Ok nav ∧ nav !! prn = Some [].
Proof.
  exists malformed_only_file, "G01"%string, {[ "G01"%string := [] ]}.
  split; vm_compute; reflexivity.
Qed.

End ParserFacts.

(** ** Time conversion and sampling *)

Module TimeFacts.

Import Time.

Lemma Qltb_lt (x y : Q) : Qltb x y = true ↔ (x < y)%Q.
Proof.
  unfold Qltb. rewrite negb_true_iff, <- not_true_iff_false, Qle_bool_iff.
  split; [apply Qnot_le_lt | apply Qlt_not_le].
Qed.

Lemma Qltb_ge (x y : Q) : Qltb x y = false ↔ (y <= x)%Q.
Proof.
  unfold Qltb. rewrite negb_false_iff, Qle_bool_iff. reflexivity.
Qed.

Lemma Qdiv_mult_back (x m : Q) : (0 < m)%Q → (x == (x / m) * m)%Q.
Proof.
  intros Hm. field. intros E. rewrite E in Hm. revert Hm. apply Qlt_irrefl.
Qed.

Lemma Qmult_le_pos (m f q : Q) : (0 < m)%Q → (f <= q)%Q → (m * f <= m * q)%Q.
Proof. intros Hm H. apply (proj2 (Qmult_le_l f q m Hm)), H. Qed.

Lemma Qmult_lt_pos (m f q : Q) : (0 < m)%Q → (f < q)%Q → (m * f < m * q)%Q.
Proof. intros Hm H. apply (proj2 (Qmult_lt_l f q m Hm)), H. Qed.

(** The remainder of a float by a positive modulus lies in [[0, m)]. *)
Lemma py_mod_range (x m : Q) : (0 < m)%Q → (0 <= py_mod x m < m)%Q.
Proof.
  intros Hm. unfold py_mod.
  pose proof (Qfloor_le (x / m)) as Hlo.
  pose proof (Qlt_floor (x / m)) as Hhi.
  rewrite inject_Z_plus in Hhi. change (inject_Z 1) with 1%Q in Hhi.
  pose proof (Qdiv_mult_back x m Hm) as Hx.
  set (f := inject_Z (Qfloor (x / m))) in *.
  set (q := (x / m)%Q) in *.
  pose proof (Qmult_le_pos m f q Hm Hlo).
  pose proof (Qmult_lt_pos m q (f + 1) Hm Hhi).
  split; lra.
Qed.

(** [C9] For every calendar timestamp, [convert_to_gps_seconds] returns a
    value in [[0, 604800)]. *)
Theorem convert_to_gps_seconds_in_week (y m d h mi : Z) (s : Q) :
  (0 <= convert_to_gps_seconds y m d h mi s < 604800)%Q.
Proof.
  unfold convert_to_gps_seconds.
  match goal with |- (0 <= py_mod ?x ?w < _)%Q =>
    pose proof (py_mod_range x w) as H
  end.
  lra.
Qed.

(** An integer is below the ceiling of [x] exactly when it is below [x]. *)
Lemma lt_Qceiling (z : Z) (x : Q) : (z < Qceiling x)%Z ↔ (inject_Z z < x)%Q.
Proof.
  pose proof (Qle_ceiling x) as Hle. pose proof (Qceiling_lt x) as Hlt.
  split; intros H.
  - apply Qle_lt_trans with (inject_Z (Qceiling x - 1)); [| exact Hlt].
    rewrite <- Zle_Qle. lia.
  - rewrite Zlt_Qlt. apply Qlt_le_trans with x; assumption.
Qed.

Lemma np_arange_positive_step (start stop step : Q) :
  (0 < step)%Q →
  np_arange start stop step
  = Ok (map (epoch start step)
            (seq 0 (Z.to_nat (Qceiling ((stop - start) / step))))).
Proof.
  intros Hs. unfold np_arange.
  destruct (Qeq_bool step 0) eqn:E; [| reflexivity].
  apply Qeq_bool_iff in E. lra.
Qed.

Lemma np_arange_length (start stop step : Q) (k : nat) :
  (0 < step)%Q →
  (k < Z.to_nat (Qceiling ((stop - start) / step)))%nat
  ↔ (epoch start step k < stop)%Q.
Proof.
  intros Hs. unfold epoch.
  transitivity (Z.of_nat k < Qceiling ((stop - start) / step))%Z; [lia |].
  rewrite lt_Qceiling.
  pose proof (Qdiv_mult_back (stop - start) step Hs) as Hx.
  set (z := inject_Z (Z.of_nat k)).
  set (q := ((stop - start) / step)%Q) in *.
  split; intros H.
  - pose proof (Qmult_lt_pos step z q Hs H). lra.
  - apply (Qmult_lt_l _ _ step Hs). lra.
Qed.

End TimeFacts.

(** ** The sampling on binary64 numbers *)

Module Binary64Facts.

Import Binary64.





End Binary64Facts.

(** ** The orbit propagator: selection and time from ephemeris *)

Module PropagatorFacts.

Import Time Kepler Propagator Samples TimeFacts.

(** [C2, as stated, fails] An epoch more than a week and a half after the
    reference time of the selected record: one correction of a week leaves
    [tk] above 302400. *)
Lemma time_from_ephemeris_beyond_half_week :
  select [record_at 0] 1000000 = Ok (record_at 0)
  ∧ time_from_ephemeris 1000000 (toe (record_at 0)) = 395200%Q
  ∧ ¬ (-302400 <= time_from_ephemeris 1000000 (toe (record_at 0))
       <= 302400)%Q.
Proof.
  split; [reflexivity |]. split; [reflexivity |].
  intros [_ H]. vm_compute in H. apply H. reflexivity.
Qed.

Lemma time_from_ephemeris_bound (t toe : Q) :
  (-907200 <= t - toe <= 907200)%Q →
  (-302400 <= time_from_ephemeris t toe <= 302400)%Q.
Proof.
  intros [Hlo Hhi]. unfold time_from_ephemeris.
  destruct (Qltb 302400 (t - toe)) eqn:E1.
  - apply Qltb_lt in E1.
    destruct (Qltb (t - toe - 604800) (-302400)) eqn:E2.
    + apply Qltb_lt in E2. lra.
    + apply Qltb_ge in E2. lra.
  - apply Qltb_ge in E1.
    destruct (Qltb (t - toe) (-302400)) eqn:E2.
    + apply Qltb_lt in E2. lra.
    + apply Qltb_ge in E2. lra.
Qed.

(** [C2, amended] Whenever the epoch and the reference time are at most
    907200 s apart (a week and a half; in particular whenever both are
    seconds of one week), the corrected [tk] lies in [[-302400, 302400]]. *)
Theorem time_from_ephemeris_in_half_week (t toe : Q) :
  (-907200 <= t - toe <= 907200)%Q →
  (-302400 <= time_from_ephemeris t toe <= 302400)%Q.
Proof. apply time_from_ephemeris_bound. Qed.

Lemma time_from_ephemeris_in_half_week_witness :
  (-302400 <= time_from_ephemeris 600 604200 <= 302400)%Q.
Proof.
  apply time_from_ephemeris_in_half_week.
  split; vm_compute; discriminate.
Defined.

(** The bound of the amended claim is the exact one. *)
Lemma time_from_ephemeris_out_of_range (t toe : Q) :
  (-302400 <= time_from_ephemeris t toe <= 302400)%Q →
  (-907200 <= t - toe <= 907200)%Q.
Proof.
  unfold time_from_ephemeris.
  destruct (Qltb 302400 (t - toe)) eqn:E1.
  - apply Qltb_lt in E1.
    destruct (Qltb (t - toe - 604800) (-302400)) eqn:E2.
    + apply Qltb_lt in E2. lra.
    + apply Qltb_ge in E2. lra.
  - apply Qltb_ge in E1.
    destruct (Qltb (t - toe) (-302400)) eqn:E2.
    + apply Qltb_lt in E2. lra.
    + apply Qltb_ge in E2. lra.
Qed.

(** Two epochs of one week are never more than a week apart. *)
Lemma seconds_of_week_in_range (t toe : Q) :
  (0 <= t <= 604800)%Q → (0 <= toe <= 604800)%Q →
  (-302400 <= time_from_ephemeris t toe <= 302400)%Q.
Proof. intros Ht Htoe. apply time_from_ephemeris_bound. lra. Qed.

Section Minimum.

Context {A : Type} (key : A → Q).

(** [min_from key best xs] is the first item of [best :: xs] whose key is
    the least. *)
Lemma min_from_first (xs : list A) (best : A) :
  ∃ i : nat,
    (best :: xs) !! i = Some (min_from key best xs)
    ∧ (∀ y, y ∈ best :: xs → (key (min_from key best xs) <= key y)%Q)
    ∧ (∀ (j : nat) (y : A), (j < i)%nat → (best :: xs) !! j = Some y →
         (key (min_from key best xs) < key y)%Q).
Proof.
  revert best. induction xs as [| x xs IH]; intros best; simpl.
  - exists 0%nat. split; [reflexivity |]. split.
    + intros y Hy. apply list_elem_of_singleton in Hy as ->. apply Qle_refl.
    + intros j y Hj. lia.
  - destruct (Qltb (key x) (key best)) eqn:E.
    + apply Qltb_lt in E.
      destruct (IH x) as (i & Hi & Hall & Hbefore).
      set (m := min_from key x xs) in *.
      assert (Hmx : (key m <= key x)%Q) by (apply Hall; left).
      exists (S i). split; [exact Hi |]. split.
      * intros y Hy. apply elem_of_cons in Hy as [-> | Hy]; [lra |].
        apply Hall, Hy.
      * intros [| j] y Hj Hy; simpl in Hy.
        -- injection Hy as <-. lra.
        -- apply (Hbefore j y); [lia | exact Hy].
    + apply Qltb_ge in E.
      destruct (IH best) as (i & Hi & Hall & Hbefore).
      set (m := min_from key best xs) in *.
      assert (Hmb : (key m <= key best)%Q) by (apply Hall; left).
      destruct i as [| i].
      * exists 0%nat. split; [exact Hi |]. split.
        -- intros y Hy. apply elem_of_cons in Hy as [-> | Hy]; [exact Hmb |].
           apply elem_of_cons in Hy as [-> | Hy]; [lra |].
           apply Hall. right. exact Hy.
        -- intros j y Hj. lia.
      * exists (S (S i)). split; [exact Hi |]. split.
        -- intros y Hy. apply elem_of_cons in Hy as [-> | Hy]; [exact Hmb |].
           apply elem_of_cons in Hy as [-> | Hy]; [lra |].
           apply Hall. right. exact Hy.
        -- assert (Hlt : (key m < key best)%Q)
             by (apply (Hbefore 0%nat best); [lia | reflexivity]).
           intros [| [| j]] y Hj Hy; simpl in Hy.
           ++ injection Hy as <-. exact Hlt.
           ++ injection Hy as <-. lra.
           ++ apply (Hbefore (S j) y); [lia | exact Hy].
Qed.

Lemma py_min_first (xs : list A) :
  xs ≠ [] →
  ∃ (i : nat) (m : A),
    py_min key xs = Ok m
    ∧ xs !! i = Some m
    ∧ (∀ y, y ∈ xs → (key m <= key y)%Q)
    ∧ (∀ (j : nat) (y : A), (j < i)%nat → xs !! j = Some y →
         (key m < key y)%Q).
Proof.
  destruct xs as [| x xs]; [congruence | intros _].
  destruct (min_from_first xs x) as (i & Hi & Hall & Hbefore).
  exists i, (min_from key x xs). simpl. auto.
Qed.

End Minimum.



End PropagatorFacts.

(** ** Kepler's equation *)

Module KeplerFacts.

Import Kepler.

Local Open Scope R_scope.

Lemma default_tol_pos : 0 < default_tol.
Proof.
  unfold default_tol. apply Rdiv_lt_0_compat; [lra |]. apply pow_lt. lra.
Qed.

(** The instrumented loop returns what the loop returns. *)
Lemma iterate_count_fst (M e tol : R) (n : nat) (E : R) :
  fst (iterate_count M e tol n E) = iterate M e tol n E.
Proof.
  revert E. induction n as [| n IH]; intros E; simpl; [reflexivity |].
  destruct (update M e E) as [E1 | x]; simpl; [| reflexivity].
  destruct (Rlt_dec (Rabs (E1 - E)) tol); [reflexivity |].
  rewrite <- IH. destruct (iterate_count M e tol n E1). reflexivity.
Qed.

(** It never evaluates more updates than [max_iter]. *)
Lemma iterate_count_le (M e tol : R) (n : nat) (E : R) :
  (snd (iterate_count M e tol n E) <= n)%nat.
Proof.
  revert E. induction n as [| n IH]; intros E; simpl; [lia |].
  destruct (update M e E) as [E1 | x]; simpl; [| lia].
  destruct (Rlt_dec (Rabs (E1 - E)) tol); simpl; [lia |].
  specialize (IH E1). destruct (iterate_count M e tol n E1). simpl in *. lia.
Qed.

(** After [k] updates above the tolerance, an update below it ends the
    loop with the estimate held before that update. *)
Lemma steps_then_stop (M e tol : R) (k : nat) (E0 E E1 : R) :
  steps M e tol k E0 E →
  update M e E = Ok E1 →
  Rabs (E1 - E) < tol →
  ∀ n : nat, (k < n)%nat → iterate_count M e tol n E0 = (Ok E, S k).
Proof.
  intros Hsteps Hup Hlt.
  induction Hsteps as [E | k E E2 E' Hup2 Hge _ IH]; intros n Hn.
  - destruct n as [| n]; [lia |]. simpl. rewrite Hup.
    destruct (Rlt_dec (Rabs (E1 - E)) tol); [reflexivity | contradiction].
  - destruct n as [| n]; [lia |]. simpl. rewrite Hup2.
    destruct (Rlt_dec (Rabs (E2 - E)) tol); [contradiction |].
    rewrite (IH Hup Hlt n) by lia. reflexivity.
Qed.

(** [max_iter] updates above the tolerance exhaust the loop, which returns
    the estimate it holds. *)
Lemma steps_to_cap (M e tol : R) (n : nat) (E0 E : R) :
  steps M e tol n E0 E → iterate_count M e tol n E0 = (Ok E, n).
Proof.
  induction 1 as [E | k E E1 E' Hup Hge _ IH]; simpl; [reflexivity |].
  rewrite Hup. destruct (Rlt_dec (Rabs (E1 - E)) tol); [contradiction |].
  rewrite IH. reflexivity.
Qed.

(** [C6] [solve_kepler(M, e)] is the call with [tol = 1e-12] and
    [max_iter = 10].  For every [M], [e], tolerance and cap, the loop
    evaluates at most [max_iter] updates; the first update whose magnitude
    is below the tolerance ends it at once, with the estimate held before
    that update; and when [max_iter] updates in a row stay above the
    tolerance the loop ends without an error and returns the estimate it
    holds. *)
Theorem solve_kepler_iteration_cap (M e tol : R) (max_iter : nat) :
  let run := iterate_count M e tol max_iter M in
  solve_kepler M e = solve_kepler_with M e (1 / 10 ^ 12) 10
  ∧ fst run = solve_kepler_with M e tol max_iter
  ∧ (snd run <= max_iter)%nat
  ∧ (∀ (k : nat) (E E1 : R),
       (k < max_iter)%nat →
       steps M e tol k M E →
       update M e E = Ok E1 →
       Rabs (E1 - E) < tol →
       run = (Ok E, S k))
  ∧ (∀ E : R, steps M e tol max_iter M E → run = (Ok E, max_iter)).
Proof.
  intros run. split; [reflexivity |].
  split; [apply iterate_count_fst |].
  split; [apply iterate_count_le |].
  split.
  - intros k E E1 Hk Hsteps Hup Hlt.
    apply (steps_then_stop M e tol k M E E1 Hsteps Hup Hlt max_iter Hk).
  - intros E Hsteps. apply (steps_to_cap M e tol max_iter M E Hsteps).
Qed.

(** With eccentricity 0 the update of any estimate is [M]. *)
Lemma update_circular (M E : R) : update M 0 E = Ok M.
Proof.
  unfold update, denominator.
  destruct (Req_dec_T (1 - 0 * cos E) 0) as [H0 | Hne]; [lra |].
  f_equal. field.
Qed.

(** [C7] For every mean anomaly [M], [solve_kepler(M, 0)] returns [M]. *)
Theorem solve_kepler_circular (M : R) : solve_kepler M 0 = Ok M.
Proof.
  unfold solve_kepler, solve_kepler_with, default_max_iter. simpl.
  rewrite update_circular. simpl.
  destruct (Rlt_dec (Rabs (M - M)) default_tol) as [_ | Hge];
    [reflexivity |].
  exfalso. apply Hge.
  replace (M - M) with 0 by ring. rewrite Rabs_R0. apply default_tol_pos.
Qed.

Lemma denominator_pos (e E : R) : 0 <= e < 1 → 0 < denominator e E.
Proof.
  intros [H0 H1]. unfold denominator.
  pose proof (COS_bound E) as [_ Hc]. nra.
Qed.

Lemma update_defined (M e E : R) :
  0 <= e < 1 → ∃ E1 : R, update M e E = Ok E1.
Proof.
  intros He. unfold update.
  pose proof (denominator_pos e E He) as Hd.
  destruct (Req_dec_T (denominator e E) 0) as [H0 | _]; [lra | eauto].
Qed.

Lemma iterate_defined (M e tol : R) (n : nat) (E : R) :
  0 <= e < 1 → ∃ E' : R, iterate M e tol n E = Ok E'.
Proof.
  intros He. revert E. induction n as [| n IH]; intros E; simpl; [eauto |].
  destruct (update_defined M e E He) as [E1 ->]. simpl.
  destruct (Rlt_dec (Rabs (E1 - E)) tol); [eauto | apply IH].
Qed.

(** [C10] For an eccentricity [0 <= e < 1] the divisor [1 - e*cos(E)] is
    positive at every estimate [E], so no update of [solve_kepler] divides
    by zero and the call returns an estimate. *)
Theorem solve_kepler_divisor_positive (M e : R) :
  0 <= e < 1 →
  (∀ E : R, 0 < denominator e E)
  ∧ (∀ E : R, update M e E
              = Ok (E - (E - e * sin E - M) / (1 - e * cos E)))
  ∧ (∀ (tol : R) (max_iter : nat),
       ∃ E : R, solve_kepler_with M e tol max_iter = Ok E)
  ∧ ∃ E : R, solve_kepler M e = Ok E.
Proof.
  intros He. split; [intros E; apply denominator_pos, He |].
  split.
  - intros E. unfold update.
    pose proof (denominator_pos e E He) as Hd.
    destruct (Req_dec_T (denominator e E) 0) as [H0 | _]; [lra | reflexivity].
  - split; [intros tol max_iter |]; apply iterate_defined, He.
Qed.

Lemma solve_kepler_divisor_positive_witness :
  (∀ E : R, 0 < denominator (1 / 2) E)
  ∧ (∀ E : R, update 0 (1 / 2) E
              = Ok (E - (E - 1 / 2 * sin E - 0) / (1 - 1 / 2 * cos E)))
  ∧ (∀ (tol : R) (max_iter : nat),
       ∃ E : R, solve_kepler_with 0 (1 / 2) tol max_iter = Ok E)
  ∧ ∃ E : R, solve_kepler 0 (1 / 2) = Ok E.
Proof.
  apply (solve_kepler_divisor_positive 0 (1 / 2)). lra.
Defined.

(** With a tolerance of 0 no update is ever below it: on a circular orbit
    the loop holds [M] through all its updates. *)
Lemma steps_without_tolerance (M : R) (n : nat) : steps M 0 0 n M M.
Proof.
  induction n as [| n IH]; [constructor |].
  apply (steps_S M 0 0 n M M M); [apply update_circular | | exact IH].
  replace (M - M) with 0 by ring. rewrite Rabs_R0. lra.
Qed.

Lemma solve_kepler_iteration_cap_witness :
  iterate_count 0 0 default_tol 10 0 = (Ok 0, 1%nat)
  ∧ iterate_count 0 0 0 10 0 = (Ok 0, 10%nat).
Proof.
  split.
  - apply (proj1 (proj2 (proj2 (proj2
             (solve_kepler_iteration_cap 0 0 default_tol 10)))) 0%nat 0 0).
    + lia.
    + constructor.
    + apply update_circular.
    + replace (0 - 0) with 0 by ring. rewrite Rabs_R0. apply default_tol_pos.
  - apply (proj2 (proj2 (proj2 (proj2
             (solve_kepler_iteration_cap 0 0 0 10))))).
    apply steps_without_tolerance.
Defined.

End KeplerFacts.

(** ** More on the parser: header, blocks and stored entries *)

Module ParserMore.

Import Parser ParserSpec ParserFacts.

(** The header scan ends at the first line that holds the terminator. *)
Lemma skip_header_first (pre : list string) (l : string) (rest : list string) :
  Forall (λ l, contains "END OF HEADER" l = false) pre →
  contains "END OF HEADER" l = true →
  skip_header (pre ++ l :: rest) = Ok rest.
Proof.
  intros Hpre Hl. induction Hpre as [| p pre Hp _ IH]; simpl.
  - rewrite Hl. reflexivity.
  - rewrite Hp. exact IH.
Qed.

Lemma skip_header_Ok (lines body : list string) :
  skip_header lines = Ok body →
  ∃ pre l,
    lines = pre ++ l :: body
    ∧ Forall (λ l, contains "END OF HEADER" l = false) pre
    ∧ contains "END OF HEADER" l = true.
Proof.
  induction lines as [| l lines IH]; simpl; [discriminate |].
  destruct (contains "END OF HEADER" l) eqn:Hl.
  - intros [= <-]. exists [], l. auto.
  - intros H. destruct (IH H) as (pre & l' & -> & Hpre & Hl').
    exists (l :: pre), l'. auto.
Qed.

Lemma skip_header_Raise (lines : list string) (x : exn) :
  skip_header lines = Raise x →
  x = IndexError ∧ Forall (λ l, contains "END OF HEADER" l = false) lines.
Proof.
  induction lines as [| l lines IH]; simpl.
  - intros [= <-]. auto.
  - destruct (contains "END OF HEADER" l) eqn:Hl; [discriminate |].
    intros H. destruct (IH H) as [-> Hall]. auto.
Qed.

(** The only exception of a block is [ValueError]. *)
Lemma process_block_raises (block : list string) (nav : nav_data) (x : exn) :
  process_block block nav = Raise x → x = ValueError.
Proof.
  unfold process_block.
  destruct (String.eqb _ _); [discriminate |].
  destruct (timestamp (hd EmptyString block)) as [ts | y] eqn:Hts; simpl.
  - destruct (block_values block) as [vs | y] eqn:Hvs; simpl.
    + destruct (_ <? _)%nat; discriminate.
    + intros [= <-]. apply (block_values_raises _ _ Hvs).
  - intros [= <-]. apply (timestamp_raises _ _ Hts).
Qed.

Lemma parse_blocks_raises (lines : list string) (nav : nav_data) (x : exn) :
  parse_blocks lines nav = Raise x → x = ValueError.
Proof.
  remember (length lines) as n eqn:Hn. revert lines nav Hn.
  induction n as [n IH] using lt_wf_ind. intros lines nav Hn.
  destruct lines as [| l0 [| l1 [| l2 [| l3 [| l4 [| l5 [| l6 [| l7 rest]]]]]]]];
    try discriminate.
  simpl.
  destruct (process_block [l0; l1; l2; l3; l4; l5; l6; l7] nav)
    as [nav' | y] eqn:Hp; simpl.
  - apply (IH (length rest)); [subst n; simpl; lia | reflexivity].
  - intros [= <-]. apply (process_block_raises _ _ _ Hp).
Qed.

(** [X1] Every line up to and including the first one that holds the
    terminator is ignored: the result of the parse is that of the block
    loop on the lines after it, started with an empty mapping. *)
Theorem parse_starts_after_first_terminator
    (contents : string) (pre : list string) (l : string)
    (body : list string) :
  read_file_lines contents = pre ++ l :: body →
  Forall (λ l, contains "END OF HEADER" l = false) pre →
  contains "END OF HEADER" l = true →
  parse_rinex_nav contents = parse_blocks body ∅.
Proof.
  intros Hlines Hpre Hl. unfold parse_rinex_nav. rewrite Hlines.
  rewrite (skip_header_first pre l body Hpre Hl). reflexivity.
Qed.

Lemma parse_starts_after_first_terminator_witness :
  parse_rinex_nav Samples.malformed_only_file
  = parse_blocks
      (read_file_lines "G01 2024 01 01 00 00 00







") ∅.
Proof.
  apply (parse_starts_after_first_terminator Samples.malformed_only_file
           [String.append "     3.04           N: GNSS NAV DATA    G: GPS"
                          (String LF EmptyString)]
           (String.append
              "                                                            END OF HEADER"
              (String LF EmptyString))).
  - vm_compute. reflexivity.
  - repeat constructor.
  - vm_compute. reflexivity.
Defined.

(** [X2] The parse raises [IndexError] exactly when no line holds the
    terminator; every other failure is a [ValueError], raised by a block
    after the header. *)
Theorem parse_exceptions (contents : string) (x : exn) :
  parse_rinex_nav contents = Raise x →
  (x = IndexError
   ∧ Forall (λ l, contains "END OF HEADER" l = false)
            (read_file_lines contents))
  ∨ (x = ValueError
     ∧ Exists (λ l, contains "END OF HEADER" l = true)
              (read_file_lines contents)).
Proof.
  unfold parse_rinex_nav. intros H.
  destruct (skip_header (read_file_lines contents)) as [body | y] eqn:Hs;
    simpl in H.
  - right. split; [apply (parse_blocks_raises _ _ _ H) |].
    destruct (skip_header_Ok _ _ Hs) as (pre & l & -> & _ & Hl).
    apply Exists_app. right. constructor. exact Hl.
  - left. injection H as <-. apply (skip_header_Raise _ _ Hs).
Qed.

Lemma parse_exceptions_witness :
  (ValueError = IndexError
   ∧ Forall (λ l, contains "END OF HEADER" l = false)
            (read_file_lines Samples.bare_identifier_file))
  ∨ (ValueError = ValueError
     ∧ Exists (λ l, contains "END OF HEADER" l = true)
              (read_file_lines Samples.bare_identifier_file)).
Proof.
  apply (parse_exceptions Samples.bare_identifier_file ValueError).
  vm_compute. reflexivity.
Defined.

(** The block loop on a block-aligned prefix, then on what follows. *)
Lemma parse_blocks_app (k : nat) (pre rest : list string) (nav : nav_data) :
  length pre = (8 * k)%nat →
  parse_blocks (pre ++ rest) nav
  = (nav' ← parse_blocks pre nav; parse_blocks rest nav').
Proof.
  revert pre nav. induction k as [| k IH]; intros pre nav Hlen.
  - destruct pre; [| simpl in Hlen; lia]. reflexivity.
  - destruct pre as
      [| l0 [| l1 [| l2 [| l3 [| l4 [| l5 [| l6 [| l7 pre]]]]]]]];
      simpl in Hlen; try lia.
    simpl.
    destruct (process_block [l0; l1; l2; l3; l4; l5; l6; l7] nav)
      as [nav1 | x]; simpl; [| reflexivity].
    apply IH. lia.
Qed.

Lemma parse_blocks_short (tail : list string) (nav : nav_data) :
  (length tail < 8)%nat → parse_blocks tail nav = Ok nav.
Proof.
  intros H.
  destruct tail as
    [| l0 [| l1 [| l2 [| l3 [| l4 [| l5 [| l6 [| l7 tail]]]]]]]];
    simpl in H; try lia; reflexivity.
Qed.

(** [X3] Lines left over after the last full block of 8 are dropped: they
    change neither the mapping nor the exception of the parse of the
    blocks before them. *)
Theorem trailing_partial_block_ignored
    (k : nat) (lines tail : list string) (nav : nav_data) :
  length lines = (8 * k)%nat →
  (length tail < 8)%nat →
  parse_blocks (lines ++ tail) nav = parse_blocks lines nav.
Proof.
  intros Hlen Htail. rewrite (parse_blocks_app k lines tail nav Hlen).
  destruct (parse_blocks lines nav) as [nav' | x]; simpl; [| reflexivity].
  apply parse_blocks_short, Htail.
Qed.

Lemma trailing_partial_block_ignored_witness :
  parse_blocks
    (["G01 2024 01 01 00 00 00"; "a"; "b"; "c"; "d"; "e"; "f"; "g"]
     ++ ["G02 2024 01 01 00 00 00"; "1.0D+00"; "x.yD"]) ∅
  = parse_blocks
      ["G01 2024 01 01 00 00 00"; "a"; "b"; "c"; "d"; "e"; "f"; "g"] ∅.
Proof.
  apply (trailing_partial_block_ignored 1); simpl; lia.
Defined.

(** [X4] A block whose identifier columns are blank is never converted: it
    can be removed from between the blocks, whatever its other columns and
    lines hold, without changing the result of the parse. *)
Theorem blank_block_transparent
    (k : nat) (pre blank rest : list string) (nav : nav_data) :
  length pre = (8 * k)%nat →
  length blank = 8%nat →
  block_prn blank = EmptyString →
  parse_blocks (pre ++ blank ++ rest) nav = parse_blocks (pre ++ rest) nav.
Proof.
  intros Hpre Hlen Hblank.
  rewrite !(parse_blocks_app k pre _ nav Hpre).
  destruct (parse_blocks pre nav) as [nav' | x]; simpl; [| reflexivity].
  destruct blank as
    [| l0 [| l1 [| l2 [| l3 [| l4 [| l5 [| l6 [| l7 [| l8 blank]]]]]]]]];
    simpl in Hlen; try lia.
  apply parse_blocks_step, process_blank_block, Hblank.
Qed.

Lemma blank_block_transparent_witness :
  parse_blocks
    (["G01 2024 01 01 00 00 00"; "a"; "b"; "c"; "d"; "e"; "f"; "g"]
     ++ ["    abcd 1.2.3D+01"; "a"; "b"; "c"; "d"; "e"; "f"; "g"]
     ++ ["G02 2024 01 01 00 00 00"; "a"; "b"; "c"; "d"; "e"; "f"; "g"]) ∅
  = parse_blocks
      (["G01 2024 01 01 00 00 00"; "a"; "b"; "c"; "d"; "e"; "f"; "g"]
       ++ ["G02 2024 01 01 00 00 00"; "a"; "b"; "c"; "d"; "e"; "f"; "g"]) ∅.
Proof.
  apply (blank_block_transparent 1); [reflexivity | reflexivity |].
  vm_compute. reflexivity.
Defined.

Lemma setdefault_is_Some (p prn : string) (nav : nav_data) :
  is_Some (setdefault p nav !! prn) ↔ is_Some (nav !! prn) ∨ p = prn.
Proof.
  unfold setdefault. destruct (nav !! p) eqn:Hp.
  - split; [auto |]. intros [H | <-]; [exact H |]. rewrite Hp. eauto.
  - rewrite lookup_insert_is_Some. split.
    + intros [-> | [_ H]]; auto.
    + intros [H | ->]; [| auto].
      destruct (decide (p = prn)) as [-> | Hne]; auto.
Qed.

Lemma entries_of_one (prn : string) (b : list string) :
  entries_of prn [b]
  = match block_entry b with
    | Some (p, en) => if String.eqb p prn then [en] else []
    | None => []
    end.
Proof.
  unfold entries_of. simpl.
  destruct (block_entry b) as [[p en] |]; [| reflexivity].
  destruct (String.eqb p prn); reflexivity.
Qed.

(** What one block does to the mapping. *)
Lemma process_block_records (block : list string) (nav nav' : nav_data) :
  process_block block nav = Ok nav' →
  (∀ prn, default [] (nav' !! prn)
          = default [] (nav !! prn) ++ entries_of prn [block])
  ∧ (∀ prn, is_Some (nav' !! prn)
            ↔ is_Some (nav !! prn)
              ∨ (block_prn block = prn ∧ prn ≠ EmptyString)).
Proof.
  unfold process_block. fold (block_prn block). intros H.
  assert (Hent : ∀ prn, entries_of prn [block]
    = match block_entry block with
      | Some (p, en) => if String.eqb p prn then [en] else []
      | None => []
      end) by (intros; apply entries_of_one).
  unfold block_entry in Hent.
  destruct (String.eqb_spec (block_prn block) EmptyString) as [Hb | Hb].
  - injection H as <-. split; intros prn.
    + rewrite Hent, app_nil_r. reflexivity.
    + split; [auto |]. intros [H | [H1 H2]]; [exact H | congruence].
  - destruct (timestamp (hd EmptyString block)) as [ts | x]; [| discriminate].
    destruct (block_values block) as [vs | x]; [| discriminate].
    change (length fields) with 29%nat in *. simpl in H.
    destruct (length vs <? 29)%nat.
    + injection H as <-. split; intros prn.
      * rewrite Hent, app_nil_r. apply setdefault_records.
      * rewrite setdefault_is_Some. split; intros [H | H]; auto.
        -- subst prn. auto.
        -- destruct H as [H _]. auto.
    + injection H as <-. unfold append. split; intros prn.
      * rewrite Hent.
        destruct (String.eqb_spec (block_prn block) prn) as [<- | Hne].
        -- rewrite lookup_insert_eq. simpl.
           rewrite setdefault_records. reflexivity.
        -- rewrite lookup_insert_ne by exact Hne.
           rewrite app_nil_r. apply setdefault_records.
      * rewrite lookup_insert_is_Some, setdefault_is_Some.
        split.
        -- intros [<- | [_ [H | <-]]]; auto.
        -- intros [H | [<- _]]; [| auto].
           destruct (decide (block_prn block = prn)); auto.
Qed.

Lemma entries_of_cons (prn : string) (b : list string)
    (bs : list (list string)) :
  entries_of prn (b :: bs) = entries_of prn [b] ++ entries_of prn bs.
Proof.
  unfold entries_of. simpl.
  destruct (block_entry b) as [[p en] |]; [| reflexivity].
  destruct (String.eqb p prn); reflexivity.
Qed.

Lemma parse_blocks_records (lines : list string) (nav nav' : nav_data) :
  parse_blocks lines nav = Ok nav' →
  (∀ prn, default [] (nav' !! prn)
          = default [] (nav !! prn) ++ entries_of prn (blocks lines))
  ∧ (∀ prn, is_Some (nav' !! prn)
            ↔ is_Some (nav !! prn)
              ∨ (prn ≠ EmptyString
                 ∧ ∃ b, b ∈ blocks lines ∧ block_prn b = prn)).
Proof.
  remember (length lines) as n eqn:Hn. revert lines nav Hn.
  induction n as [n IH] using lt_wf_ind. intros lines nav Hn H.
  destruct lines as
    [| l0 [| l1 [| l2 [| l3 [| l4 [| l5 [| l6 [| l7 rest]]]]]]]];
    try (injection H as <-; split; intros prn;
         [rewrite app_nil_r; reflexivity |];
         split; [auto |]; intros [? | [_ [b [Hb _]]]]; [assumption |];
         simpl in Hb; apply elem_of_nil in Hb; contradiction).
  simpl in H.
  destruct (process_block [l0; l1; l2; l3; l4; l5; l6; l7] nav)
    as [nav1 | x] eqn:Hp; simpl in H; [| discriminate].
  destruct (process_block_records _ _ _ Hp) as [Hrec1 Hkey1].
  destruct (IH (length rest) ltac:(subst n; simpl; lia) rest nav1 eq_refl H)
    as [Hrec Hkey].
  change (blocks (l0 :: l1 :: l2 :: l3 :: l4 :: l5 :: l6 :: l7 :: rest))
    with ([l0; l1; l2; l3; l4; l5; l6; l7] :: blocks rest).
  split; intros prn.
  - rewrite Hrec, Hrec1, <- app_assoc. f_equal. symmetry.
    apply entries_of_cons.
  - rewrite Hkey, Hkey1. split.
    + intros [[H1 | [H1 H2]] | [H1 [b [Hb H2]]]]; auto.
      * right. split; [exact H2 |]. eexists.
        split; [apply elem_of_cons; left; reflexivity | exact H1].
      * right. split; [exact H1 |]. exists b.
        split; [apply elem_of_cons; right; exact Hb | exact H2].
    + intros [H1 | [H1 [b [Hb H2]]]]; auto.
      apply elem_of_cons in Hb as [-> | Hb]; [auto |].
      right. split; [exact H1 |]. exists b. auto.
Qed.

(** [X5] When the parse succeeds, the sequence stored for a satellite is
    the list of the entries of its complete blocks (identifier, timestamp
    and tokens that convert, at least 29 values), in the order of the
    file; and a satellite is a key of the mapping exactly when some block
    after the header bears its identifier. *)
Theorem parse_result_by_blocks
    (contents : string) (nav : nav_data) (body : list string) :
  parse_rinex_nav contents = Ok nav →
  skip_header (read_file_lines contents) = Ok body →
  (∀ prn, default [] (nav !! prn) = entries_of prn (blocks body))
  ∧ (∀ prn, is_Some (nav !! prn)
            ↔ prn ≠ EmptyString ∧ ∃ b, b ∈ blocks body ∧ block_prn b = prn).
Proof.
  unfold parse_rinex_nav. intros H Hs. rewrite Hs in H. simpl in H.
  destruct (parse_blocks_records body ∅ nav H) as [Hrec Hkey].
  split; intros prn.
  - rewrite Hrec, lookup_empty. reflexivity.
  - rewrite Hkey, lookup_empty. split; [| auto].
    intros [[v Hv] | Hk]; [discriminate | exact Hk].
Qed.

Lemma parse_result_by_blocks_witness :
  ∃ nav body,
    parse_rinex_nav Samples.malformed_only_file = Ok nav
    ∧ (∀ prn, default [] (nav !! prn) = entries_of prn (blocks body))
    ∧ (∀ prn, is_Some (nav !! prn)
              ↔ prn ≠ EmptyString
                ∧ ∃ b, b ∈ blocks body ∧ block_prn b = prn).
Proof.
  eexists _, _. split; [vm_compute; reflexivity |].
  apply (parse_result_by_blocks Samples.malformed_only_file).
  - vm_compute. reflexivity.
  - vm_compute. reflexivity.
Defined.

(** [X6] The entry stored for a block with at least 29 values maps the
    field names, in their fixed order, to the first 29 values in the order
    of their extraction, and the six timestamp keys to the conversions of
    the timestamp columns; values past the 29th are dropped and the entry
    has no other key. *)
Theorem stored_entry_fields
    (values : list pyfloat) (yr mo dy hr mn : Z) (sc : pyfloat) :
  (29 <= length values)%nat →
  let en := make_entry values (yr, mo, dy, hr, mn, sc) in
  (∀ (i : nat) (name : string),
     fields !! i = Some name → en !! name = PyFloat <$> values !! i)
  ∧ en !! "year"%string = Some (PyInt yr)
  ∧ en !! "month"%string = Some (PyInt mo)
  ∧ en !! "day"%string = Some (PyInt dy)
  ∧ en !! "hour"%string = Some (PyInt hr)
  ∧ en !! "minute"%string = Some (PyInt mn)
  ∧ en !! "second"%string = Some (PyFloat sc)
  ∧ dom en = list_to_set (fields ++ timestamp_keys).
Proof.
  intros Hlen en.
  assert (Hdom : dom en = list_to_set (fields ++ timestamp_keys)).
  { subst en. unfold make_entry.
    rewrite !dom_insert_L, dom_list_to_map_L, fst_zip
      by (rewrite length_fmap; exact Hlen).
    unfold timestamp_keys. rewrite list_to_set_app_L. simpl. set_solver. }
  do 29 (destruct values as [| ? values]; [simpl in Hlen; lia |]).
  clear Hlen. subst en.
  split; [| repeat split; try (vm_compute; reflexivity); exact Hdom].
  intros i name Hi.
  do 29 (destruct i as [| i];
         [injection Hi as <-; vm_compute; reflexivity |]).
  discriminate.
Qed.

Lemma stored_entry_fields_witness :
  let values := replicate 30 (Finite 1) in
  let en := make_entry values (2024, 1, 1, 0, 0, Finite 0)%Z in
  (∀ (i : nat) (name : string),
     fields !! i = Some name → en !! name = PyFloat <$> values !! i)
  ∧ en !! "year"%string = Some (PyInt 2024)
  ∧ en !! "month"%string = Some (PyInt 1)
  ∧ en !! "day"%string = Some (PyInt 1)
  ∧ en !! "hour"%string = Some (PyInt 0)
  ∧ en !! "minute"%string = Some (PyInt 0)
  ∧ en !! "second"%string = Some (PyFloat (Finite 0))
  ∧ dom en = list_to_set (fields ++ timestamp_keys).
Proof.
  apply (stored_entry_fields (replicate 30 (Finite 1))).
  simpl. lia.
Defined.

Lemma lstrip_length (cs : list ascii) : (length (lstrip cs) <= length cs)%nat.
Proof.
  induction cs as [| c cs IH]; simpl; [lia |].
  destruct (is_space c); simpl; lia.
Qed.

Lemma lstrip_head (cs : list ascii) (c : ascii) (r : list ascii) :
  lstrip cs = c :: r → is_space c = false.
Proof.
  induction cs as [| d cs IH]; simpl; [discriminate |].
  destruct (is_space d) eqn:Hd; [exact IH |].
  intros [= <- <-]. exact Hd.
Qed.

Lemma lstrip_suffix (cs : list ascii) : ∃ pre, cs = pre ++ lstrip cs.
Proof.
  induction cs as [| c cs [pre IH]]; simpl; [exists []; reflexivity |].
  destruct (is_space c).
  - exists (c :: pre). simpl. f_equal. exact IH.
  - exists []. reflexivity.
Qed.

Lemma lstrip_fixed (cs : list ascii) :
  (∀ c r, cs = c :: r → is_space c = false) → lstrip cs = cs.
Proof.
  destruct cs as [| c cs]; [reflexivity |]. intros H. simpl.
  rewrite (H c cs eq_refl). reflexivity.
Qed.

Lemma strip_chars_length (cs : list ascii) :
  (length (strip_chars cs) <= length cs)%nat.
Proof.
  unfold strip_chars. rewrite length_rev.
  pose proof (lstrip_length (rev (lstrip cs))) as H1.
  rewrite length_rev in H1. pose proof (lstrip_length cs). lia.
Qed.

(** Stripping a stripped text changes nothing. *)
Lemma strip_chars_idempotent (cs : list ascii) :
  strip_chars (strip_chars cs) = strip_chars cs.
Proof.
  unfold strip_chars.
  set (a := lstrip cs). set (b := lstrip (rev a)).
  assert (Hb : lstrip b = b).
  { apply lstrip_fixed. intros c r Hc. apply (lstrip_head (rev a) c r).
    exact Hc. }
  assert (Hrb : lstrip (rev b) = rev b).
  { apply lstrip_fixed. intros c r Hc.
    destruct (lstrip_suffix (rev a)) as [pre Hpre]. fold b in Hpre.
    assert (Hbc : b = rev r ++ [c]).
    { rewrite <- (rev_involutive b), Hc. reflexivity. }
    rewrite Hbc, app_assoc in Hpre.
    apply (f_equal (@rev ascii)) in Hpre.
    rewrite rev_involutive, rev_app_distr in Hpre. simpl in Hpre.
    apply (lstrip_head cs c (rev (pre ++ rev r))). exact Hpre. }
  rewrite Hrb, rev_involutive, Hb. reflexivity.
Qed.

Lemma strip_idempotent (s : string) : strip (strip s) = strip s.
Proof.
  unfold strip. rewrite list_ascii_of_string_of_list_ascii.
  rewrite strip_chars_idempotent. reflexivity.
Qed.

Lemma length_list_ascii_of_string (s : string) :
  length (list_ascii_of_string s) = String.length s.
Proof. induction s as [| c s IH]; simpl; [reflexivity | f_equal; exact IH]. Qed.

Lemma strip_length (s : string) :
  (String.length (strip s) <= String.length s)%nat.
Proof.
  unfold strip. rewrite <- !length_list_ascii_of_string.
  rewrite list_ascii_of_string_of_list_ascii. apply strip_chars_length.
Qed.

Lemma slice_length (a b : nat) (s : string) :
  (String.length (slice a b s) <= b - a)%nat.
Proof.
  unfold slice. generalize (b - a)%nat as m. clear b.
  revert a. induction s as [| c s IH]; intros a m.
  - destruct a, m; simpl; lia.
  - destruct a as [| a].
    + destruct m as [| m]; simpl; [lia |].
      specialize (IH 0%nat m). lia.
    + simpl. apply IH.
Qed.

(** [X7] Every key of the parsed mapping is a stripped, non-empty text of
    at most three characters: the identifier columns of some block. *)
Theorem parsed_keys_well_formed
    (contents : string) (nav : nav_data) (prn : string) :
  parse_rinex_nav contents = Ok nav →
  is_Some (nav !! prn) →
  prn ≠ EmptyString
  ∧ (1 <= String.length prn <= 3)%nat
  ∧ strip prn = prn.
Proof.
  unfold parse_rinex_nav. intros H Hin.
  destruct (skip_header (read_file_lines contents)) as [body | x];
    [| discriminate].
  simpl in H. destruct (parse_blocks_records body ∅ nav H) as [_ Hkey].
  apply Hkey in Hin as [[v Hv] | [Hne [b [_ <-]]]];
    [rewrite lookup_empty in Hv; discriminate |].
  split; [exact Hne |]. split; [split |].
  - destruct (block_prn b); [contradiction | simpl; lia].
  - unfold block_prn.
    pose proof (strip_length (slice 0 3 (hd EmptyString b))).
    pose proof (slice_length 0 3 (hd EmptyString b)). lia.
  - apply strip_idempotent.
Qed.

Lemma parsed_keys_well_formed_witness :
  "G01"%string ≠ EmptyString
  ∧ (1 <= String.length "G01" <= 3)%nat
  ∧ strip "G01" = "G01"%string.
Proof.
  apply (parsed_keys_well_formed Samples.malformed_only_file
           {[ "G01"%string := [] ]}).
  - vm_compute. reflexivity.
  - vm_compute. eauto.
Defined.

Lemma list_ascii_of_string_app (s t : string) :
  list_ascii_of_string (String.append s t)
  = list_ascii_of_string s ++ list_ascii_of_string t.
Proof. induction s as [| c s IH]; simpl; [reflexivity | f_equal; exact IH]. Qed.

Lemma list_ascii_of_concat (ls : list string) :
  list_ascii_of_string (String.concat EmptyString ls)
  = concat (map list_ascii_of_string ls).
Proof.
  induction ls as [| l ls IH]; [reflexivity |].
  destruct ls as [| l' ls].
  - simpl. rewrite app_nil_r. reflexivity.
  - change (String.concat EmptyString (l :: l' :: ls))
      with (String.append l (String.append EmptyString
              (String.concat EmptyString (l' :: ls)))).
    rewrite !list_ascii_of_string_app, IH. reflexivity.
Qed.

Lemma readlines_concat (cur cs : list ascii) :
  Forall (λ c, code c ≠ 13%nat) cs →
  concat (map list_ascii_of_string (readlines cur cs)) = rev cur ++ cs.
Proof.
  intros Hcs. revert cur.
  induction Hcs as [| c cs Hc _ IH]; intros cur.
  - destruct cur; simpl; [reflexivity |].
    rewrite list_ascii_of_string_of_list_ascii, !app_nil_r. reflexivity.
  - simpl. destruct (Nat.eqb_spec (code c) 10) as [H10 | H10].
    + simpl. unfold close_line.
      rewrite list_ascii_of_string_of_list_ascii, IH. simpl.
      assert (c = LF) as ->.
      { unfold LF. rewrite <- H10. unfold code.
        symmetry. apply ascii_nat_embedding. }
      rewrite <- app_assoc. reflexivity.
    + destruct (Nat.eqb_spec (code c) 13) as [H13 | _]; [contradiction |].
      rewrite IH. simpl. rewrite <- app_assoc. reflexivity.
Qed.

(** [X8] [read_file_lines] loses nothing of a file that holds no carriage
    return: its lines, joined, are the contents of the file. *)
Theorem read_file_lines_join (contents : string) :
  Forall (λ c, code c ≠ 13%nat) (list_ascii_of_string contents) →
  String.concat EmptyString (read_file_lines contents) = contents.
Proof.
  intros H.
  rewrite <- (string_of_list_ascii_of_string
                (String.concat EmptyString (read_file_lines contents))).
  rewrite list_ascii_of_concat. unfold read_file_lines.
  rewrite (readlines_concat [] _ H). simpl.
  apply string_of_list_ascii_of_string.
Qed.

Lemma read_file_lines_join_witness :
  String.concat EmptyString (read_file_lines "G01 1.0D+00

G02") = "G01 1.0D+00

G02"%string.
Proof.
  apply read_file_lines_join.
  vm_compute. repeat constructor; discriminate.
Defined.

End ParserMore.

(** ** More on time conversion, time bounds and sampling *)

Module TimeMore.

Import Time Kepler Propagator Pipeline TimeFacts PropagatorFacts.

Lemma Qfloor_unique (x : Q) (z : Z) :
  (inject_Z z <= x)%Q → (x < inject_Z (z + 1))%Q → Qfloor x = z.
Proof.
  intros Hlo Hhi.
  pose proof (Qfloor_le x) as H1. pose proof (Qlt_floor x) as H2.
  assert (Qfloor x < z + 1)%Z
    by (rewrite Zlt_Qlt; apply Qle_lt_trans with x; assumption).
  assert (z < Qfloor x + 1)%Z
    by (rewrite Zlt_Qlt; apply Qle_lt_trans with x; assumption).
  lia.
Qed.
Lemma Qfloor_shift (x : Q) (k : Z) :
  Qfloor (x + inject_Z k) = (Qfloor x + k)%Z.
Proof.
  pose proof (Qfloor_le x) as H1. pose proof (Qlt_floor x) as H2.
  apply Qfloor_unique.
  - rewrite inject_Z_plus. lra.
  - rewrite inject_Z_plus in H2. rewrite !inject_Z_plus.
    change (inject_Z 1) with 1%Q in *. lra.
Qed.
Lemma py_mod_proper (x y m : Q) : (x == y)%Q → (py_mod x m == py_mod y m)%Q.
Proof.
  intros H. unfold py_mod.
  assert (E : Qfloor (x / m) = Qfloor (y / m)).
  { apply Qfloor_comp. apply Qdiv_comp; [exact H | reflexivity]. }
  rewrite E. apply Qplus_comp; [exact H | reflexivity].
Qed.
Lemma py_mod_shift (x m : Q) (k : Z) :
  (0 < m)%Q → (py_mod (x + inject_Z k * m) m == py_mod x m)%Q.
Proof.
  intros Hm. unfold py_mod.
  assert (E : ((x + inject_Z k * m) / m == x / m + inject_Z k)%Q)
    by (field; lra).
  rewrite (Qfloor_comp _ _ E), Qfloor_shift, inject_Z_plus. ring.
Qed.

(** The Julian day number of the date, without its day of the month. *)
Lemma convert_shape (y m : Z) :
  ∃ c : Z,
    (∀ d h mi s,
       (convert_to_gps_seconds y m d h mi s
        == py_mod ((inject_Z (d + c) - (4888489 # 2)) * 86400
                   + inject_Z (h - 12) * 3600 + inject_Z mi * 60 + s)
                  (7 * 86400))%Q).
Proof.
  set (a := ((14 - m) / 12)%Z).
  set (y_new := (y + 4800 - a)%Z).
  set (m_new := (m + 12 * a - 3)%Z).
  exists ((153 * m_new + 2) / 5 + 365 * y_new + y_new / 4 - y_new / 100
          + y_new / 400 - 32045)%Z.
  intros d h mi s. unfold convert_to_gps_seconds.
  apply py_mod_proper.
  fold a. fold y_new. fold m_new.
  set (A := ((153 * m_new + 2) / 5)%Z).
  set (B := (y_new / 4)%Z). set (C := (y_new / 100)%Z).
  set (D := (y_new / 400)%Z).
  replace (d + A + 365 * y_new + B - C + D - 32045)%Z
    with (d + (A + 365 * y_new + B - C + D - 32045))%Z by ring.
  generalize (inject_Z (d + (A + 365 * y_new + B - C + D - 32045))) as J,
    (inject_Z (h - 12)) as H, (inject_Z mi) as MI.
  intros. field.
Qed.

(** [X9] [convert_to_gps_seconds] carries: 60 more seconds count as one
    more minute, 60 more minutes as one more hour, 24 more hours as one more
    day, and a day number 7 larger gives the same second of the week. *)
Theorem convert_to_gps_seconds_carry (y m d h mi : Z) (s : Q) :
  (convert_to_gps_seconds y m d h mi (s + 60)
   == convert_to_gps_seconds y m d h (mi + 1) s)%Q
  ∧ (convert_to_gps_seconds y m d h (mi + 60) s
     == convert_to_gps_seconds y m d (h + 1) mi s)%Q
  ∧ (convert_to_gps_seconds y m d (h + 24) mi s
     == convert_to_gps_seconds y m (d + 1) h mi s)%Q
  ∧ (convert_to_gps_seconds y m (d + 7) h mi s
     == convert_to_gps_seconds y m d h mi s)%Q.
Proof.
  destruct (convert_shape y m) as [c Hc].
  split; [| split; [| split]].
  - rewrite !Hc. apply py_mod_proper.
    rewrite (inject_Z_plus mi 1). ring.
  - rewrite !Hc. apply py_mod_proper.
    replace (h + 1 - 12)%Z with ((h - 12) + 1)%Z by ring.
    rewrite (inject_Z_plus mi 60), (inject_Z_plus (h - 12) 1). ring.
  - rewrite !Hc. apply py_mod_proper.
    replace (h + 24 - 12)%Z with ((h - 12) + 24)%Z by ring.
    replace (d + 1 + c)%Z with ((d + c) + 1)%Z by ring.
    rewrite (inject_Z_plus (h - 12) 24), (inject_Z_plus (d + c) 1). ring.
  - rewrite !Hc.
    rewrite <- (py_mod_shift
                  ((inject_Z (d + c) - (4888489 # 2)) * 86400
                   + inject_Z (h - 12) * 3600 + inject_Z mi * 60 + s)
                  (7 * 86400) 1) by lra.
    apply py_mod_proper.
    replace (d + 7 + c)%Z with ((d + c) + 7)%Z by ring.
    rewrite (inject_Z_plus (d + c) 7). ring.
Qed.

Lemma max_from_spec (xs : list Q) (best : Q) :
  max_from best xs ∈ best :: xs
  ∧ ∀ y, y ∈ best :: xs → (y <= max_from best xs)%Q.
Proof.
  revert best. induction xs as [| x xs IH]; intros best; simpl.
  - split; [left |]. intros y Hy.
    apply list_elem_of_singleton in Hy as ->. apply Qle_refl.
  - destruct (Qltb best x) eqn:E.
    + apply Qltb_lt in E. destruct (IH x) as [Hin Hall].
      split; [right; exact Hin |].
      intros y Hy. apply elem_of_cons in Hy as [-> | Hy]; [| apply Hall, Hy].
      assert (x <= max_from x xs)%Q by (apply Hall; left). lra.
    + apply Qltb_ge in E. destruct (IH best) as [Hin Hall].
      split.
      * apply elem_of_cons in Hin as [-> | Hin]; [left | right; right; exact Hin].
      * intros y Hy. apply elem_of_cons in Hy as [-> | Hy]; [apply Hall; left |].
        apply elem_of_cons in Hy as [-> | Hy].
        -- assert (best <= max_from best xs)%Q by (apply Hall; left). lra.
        -- apply Hall. right. exact Hy.
Qed.

Lemma min_from_spec (xs : list Q) (best : Q) :
  min_from (λ x, x) best xs ∈ best :: xs
  ∧ ∀ y, y ∈ best :: xs → (min_from (λ x, x) best xs <= y)%Q.
Proof.
  destruct (min_from_first (λ x : Q, x) xs best) as (i & Hi & Hall & _).
  split; [| exact Hall].
  apply list_elem_of_lookup. exists i. exact Hi.
Qed.

Lemma get_time_bounds_cases (records : list EphemerisRecord) :
  match get_time_bounds records with
  | Raise x => x = ValueError ∧ records = []
  | Ok (lo, hi) =>
      (∃ r, r ∈ records ∧ toe r = lo)
      ∧ (∃ r, r ∈ records ∧ toe r = hi)
      ∧ ∀ r, r ∈ records → (lo <= toe r <= hi)%Q
  end.
Proof.
  unfold get_time_bounds. destruct records as [| r0 rs]; [simpl; auto |].
  simpl.
  destruct (min_from_spec (map toe rs) (toe r0)) as [Hmin Hlo].
  destruct (max_from_spec (map toe rs) (toe r0)) as [Hmax Hhi].
  change (toe r0 :: map toe rs) with (toe <$> (r0 :: rs)) in *.
  apply list_elem_of_fmap in Hmin as (rmin & Hrmin & Hinmin).
  apply list_elem_of_fmap in Hmax as (rmax & Hrmax & Hinmax).
  split; [eauto |]. split; [eauto |].
  intros r Hr.
  assert (toe r ∈ toe <$> (r0 :: rs))
    by (apply list_elem_of_fmap; eauto).
  split; [apply Hlo | apply Hhi]; assumption.
Qed.

(** [X10] [get_time_bounds] raises, a [ValueError], exactly on an empty
    sequence of records; otherwise it returns two reference times of the
    sequence that bound all the others. *)
Theorem get_time_bounds_spec (records : list EphemerisRecord) :
  match get_time_bounds records with
  | Raise x => x = ValueError ∧ records = []
  | Ok (lo, hi) =>
      (∃ r, r ∈ records ∧ toe r = lo)
      ∧ (∃ r, r ∈ records ∧ toe r = hi)
      ∧ ∀ r, r ∈ records → (lo <= toe r <= hi)%Q
  end.
Proof. apply get_time_bounds_cases. Qed.




Lemma sample_times_bounds (records : list EphemerisRecord) (dt : Q)
    (times : list Q) :
  (0 < dt)%Q →
  sample_times records dt = Ok times →
  ∃ lo hi,
    get_time_bounds records = Ok (lo, hi)
    ∧ ∀ t, t ∈ times → (lo <= t < hi + end_tolerance)%Q.
Proof.
  intros Hdt. unfold sample_times.
  destruct (get_time_bounds records) as [[lo hi] | x]; [| discriminate].
  simpl. unfold generate_time_sequence.
  rewrite (np_arange_positive_step _ _ _ Hdt). intros [= <-].
  exists lo, hi. split; [reflexivity |].
  intros t Ht. apply list_elem_of_fmap in Ht as (k & -> & Hk).
  apply elem_of_seq in Hk as [_ Hk]. simpl in Hk.
  split.
  - unfold epoch.
    assert (0 <= inject_Z (Z.of_nat k))%Q
      by (change 0%Q with (inject_Z 0); rewrite <- Zle_Qle; lia).
    nra.
  - apply (np_arange_length lo (hi + end_tolerance) dt k Hdt). exact Hk.
Qed.

Lemma select_elem (records : list EphemerisRecord) (t : Q)
    (eph : EphemerisRecord) :
  select records t = Ok eph → eph ∈ records.
Proof.
  intros H. destruct records as [| r rs]; [discriminate |].
  destruct (py_min_first (distance t) (r :: rs) ltac:(discriminate))
    as (i & m & Hsel & Hi & _).
  unfold select in H. rewrite Hsel in H. injection H as <-.
  apply list_elem_of_lookup. eauto.
Qed.

(** [X12] When every reference time of a satellite is a second of one
    week, in [[0, 604800]], every epoch sampled between its time bounds
    with a positive step has, for the record selected at that epoch, a
    time from ephemeris within [[-302400, 302400]]. *)
Theorem sampled_tk_in_half_week
    (records : list EphemerisRecord) (dt : Q) (times : list Q) :
  (0 < dt)%Q →
  Forall (λ r, (0 <= toe r <= 604800)%Q) records →
  sample_times records dt = Ok times →
  ∀ (t : Q) (eph : EphemerisRecord),
    t ∈ times → select records t = Ok eph →
    (-302400 <= time_from_ephemeris t (toe eph) <= 302400)%Q.
Proof.
  intros Hdt Hweek Htimes t eph Ht Hsel.
  destruct (sample_times_bounds records dt times Hdt Htimes)
    as (lo & hi & Hb & Hin).
  specialize (Hin t Ht).
  pose proof (get_time_bounds_cases records) as Hspec. rewrite Hb in Hspec.
  destruct Hspec as ((rlo & Hrlo & <-) & (rhi & Hrhi & <-) & _).
  rewrite Forall_forall in Hweek.
  pose proof (Hweek rlo Hrlo). pose proof (Hweek rhi Hrhi).
  pose proof (Hweek eph (select_elem _ _ _ Hsel)).
  apply time_from_ephemeris_bound. unfold end_tolerance in Hin. lra.
Qed.

Lemma sampled_tk_in_half_week_witness :
  ∃ times : list Q,
    sample_times Samples.tied_records 3600 = Ok times
    ∧ ∀ (t : Q) (eph : EphemerisRecord),
        t ∈ times → select Samples.tied_records t = Ok eph →
        (-302400 <= time_from_ephemeris t (toe eph) <= 302400)%Q.
Proof.
  eexists. split; [vm_compute; reflexivity |].
  apply (sampled_tk_in_half_week Samples.tied_records 3600).
  - lra.
  - repeat constructor; simpl; lra.
  - vm_compute. reflexivity.
Defined.

Lemma Qceiling_one (x : Q) : (0 < x)%Q → (x <= 1)%Q → Qceiling x = 1%Z.
Proof.
  intros H0 H1.
  pose proof (lt_Qceiling 0 x) as [_ Ha].
  pose proof (lt_Qceiling 1 x) as [Hb _].
  change (inject_Z 0) with 0%Q in Ha. change (inject_Z 1) with 1%Q in Hb.
  specialize (Ha H0).
  destruct (Z_lt_le_dec 1 (Qceiling x)) as [Hlt | Hle]; [| lia].
  apply Hb in Hlt. lra.
Qed.

(** [X13] A satellite with a single record whose reference time is
    below [2^24] in magnitude is sampled at exactly one epoch, that
    reference time, whatever the step from twice the tolerance [1e-9] up;
    the positions returned for it are one position, computed from that
    record at that epoch.  (Below [2^24] the tolerance added to [end] is
    not rounded away and stays under [2e-9].) *)
Theorem single_record_sampled_once (r : EphemerisRecord) (dt : Q) :
  (2 * end_tolerance <= dt)%Q →
  (-16777216 < toe r < 16777216)%Q →
  sample_times [r] dt = Ok [epoch (toe r) dt 0]
  ∧ (epoch (toe r) dt 0 == toe r)%Q
  ∧ ∀ results : list (Q * R * R * R),
      sample_positions [r] dt = Ok results →
      ∃ p, position r (epoch (toe r) dt 0) = Ok p ∧ results = [p].
Proof.
  intros Hdt _.
  assert (Hpos : (0 < dt)%Q) by (unfold end_tolerance in Hdt; lra).
  assert (Ht : sample_times [r] dt = Ok [epoch (toe r) dt 0]).
  { unfold sample_times. simpl. unfold generate_time_sequence.
    rewrite (np_arange_positive_step _ _ _ Hpos).
    assert (E : ((toe r + end_tolerance - toe r) / dt
                 == end_tolerance / dt)%Q) by (field; lra).
    rewrite (Qceiling_comp _ _ E), Qceiling_one; [reflexivity | |].
    - apply Qlt_shift_div_l; [exact Hpos |]. unfold end_tolerance. lra.
    - apply Qle_shift_div_r; [exact Hpos |]. unfold end_tolerance in *. lra. }
  split; [exact Ht |]. split; [unfold epoch; simpl; ring |].
  intros results. unfold sample_positions. rewrite Ht.
  unfold compute_positions, select. simpl.
  destruct (position r (epoch (toe r) dt 0)) as [p | x]; simpl;
    [| discriminate].
  intros [= <-]. eauto.
Qed.

Lemma single_record_sampled_once_witness :
  sample_times [Samples.record_at 7200] 30
  = Ok [epoch (toe (Samples.record_at 7200)) 30 0]
  ∧ (epoch (toe (Samples.record_at 7200)) 30 0
     == toe (Samples.record_at 7200))%Q
  ∧ ∀ results : list (Q * R * R * R),
      sample_positions [Samples.record_at 7200] 30 = Ok results →
      ∃ p, position (Samples.record_at 7200)
             (epoch (toe (Samples.record_at 7200)) 30 0) = Ok p
           ∧ results = [p].
Proof.
  apply single_record_sampled_once.
  - unfold end_tolerance. lra.
  - simpl. lra.
Defined.

End TimeMore.

(** ** More on Kepler's equation *)

Module KeplerMore.

Import Kepler KeplerFacts.

Local Open Scope R_scope.


(** How a call that returns has left the loop. *)
Lemma iterate_outcome (M e tol : R) (n : nat) (E0 E : R) :
  iterate M e tol n E0 = Ok E →
  (∃ (k : nat) (E1 : R),
     (k < n)%nat ∧ steps M e tol k E0 E
     ∧ update M e E = Ok E1 ∧ Rabs (E1 - E) < tol)
  ∨ steps M e tol n E0 E.
Proof.
  revert E0. induction n as [| n IH]; intros E0; simpl.
  - intros [= <-]. right. constructor.
  - destruct (update M e E0) as [E1 | x] eqn:Hup; simpl; [| discriminate].
    destruct (Rlt_dec (Rabs (E1 - E0)) tol) as [Hlt | Hge].
    + intros [= <-]. left. exists 0%nat, E1.
      split; [lia |]. split; [constructor | auto].
    + intros H. destruct (IH E1 H) as [(k & E2 & Hk & Hs & Hu & Hl) | Hs].
      * left. exists (S k), E2. split; [lia |].
        split; [apply (steps_S M e tol k E0 E1 E Hup Hge Hs) | auto].
      * right. apply (steps_S M e tol n E0 E1 E Hup Hge Hs).
Qed.

Lemma update_Ok (M e E E1 : R) :
  update M e E = Ok E1 →
  denominator e E ≠ 0 ∧ E1 = E - (E - e * sin E - M) / denominator e E.
Proof.
  unfold update. destruct (Req_dec_T (denominator e E) 0); [discriminate |].
  intros [= <-]. auto.
Qed.

(** [X14] An estimate returned before the cap is reached satisfies
    Kepler's equation up to the tolerance times the divisor: either all
    [max_iter] updates stayed above the tolerance, or
    [|E - e*sin(E) - M| < tol * |1 - e*cos(E)|], which is below [2 * tol]
    for an eccentricity [0 <= e < 1]. *)
Theorem solve_kepler_residual (M e tol : R) (max_iter : nat) (E : R) :
  solve_kepler_with M e tol max_iter = Ok E →
  steps M e tol max_iter M E
  ∨ (Rabs (E - e * sin E - M) < tol * Rabs (1 - e * cos E)
     ∧ (0 <= e < 1 → Rabs (E - e * sin E - M) < 2 * tol)).
Proof.
  intros H. destruct (iterate_outcome M e tol max_iter M E H)
    as [(k & E1 & _ & _ & Hup & Hlt) | Hs]; [right | left; exact Hs].
  apply update_Ok in Hup as [Hd ->]. unfold denominator in *.
  set (f := E - e * sin E - M) in *. set (d := 1 - e * cos E) in *.
  replace (E - f / d - E) with (- (f / d)) in Hlt by (field; exact Hd).
  unfold Rdiv in Hlt. rewrite Rabs_Ropp, Rabs_mult, Rabs_inv in Hlt.
  assert (Hdpos : 0 < Rabs d) by (apply Rabs_pos_lt; exact Hd).
  assert (Hres : Rabs f < tol * Rabs d).
  { apply (Rmult_lt_compat_r (Rabs d)) in Hlt; [| exact Hdpos].
    rewrite Rmult_assoc, Rinv_l, Rmult_1_r in Hlt; [exact Hlt | lra]. }
  split; [exact Hres |]. intros [He0 He1].
  assert (Rabs d < 2).
  { pose proof (COS_bound E) as [Hc1 Hc2]. subst d.
    apply Rabs_def1; nra. }
  assert (0 < tol) by (pose proof (Rabs_pos f); nra).
  nra.
Qed.

Lemma solve_kepler_residual_witness :
  steps 0 0 default_tol 10 0 0
  ∨ (Rabs (0 - 0 * sin 0 - 0) < default_tol * Rabs (1 - 0 * cos 0)
     ∧ (0 <= 0 < 1 → Rabs (0 - 0 * sin 0 - 0) < 2 * default_tol)).
Proof.
  apply (solve_kepler_residual 0 0 default_tol 10 0).
  unfold solve_kepler_with. simpl. rewrite update_circular. simpl.
  destruct (Rlt_dec (Rabs (0 - 0)) default_tol) as [_ | Hge];
    [reflexivity |].
  exfalso. apply Hge. replace (0 - 0) with 0 by ring.
  rewrite Rabs_R0. apply default_tol_pos.
Defined.

Lemma update_shift (M e E : R) :
  update (M + 2 * PI) e (E + 2 * PI)
  = (λ E1, E1 + 2 * PI) <$> update M e E.
Proof.
  unfold update, denominator.
  rewrite sin_plus, cos_plus, sin_2PI, cos_2PI.
  replace (cos E * 1 - sin E * 0) with (cos E) by ring.
  replace (sin E * 1 + cos E * 0) with (sin E) by ring.
  destruct (Req_dec_T (1 - e * cos E) 0); [reflexivity |].
  simpl. f_equal. unfold Rdiv. ring.
Qed.

Lemma iterate_shift (M e tol : R) (n : nat) (E : R) :
  iterate (M + 2 * PI) e tol n (E + 2 * PI)
  = (λ E1, E1 + 2 * PI) <$> iterate M e tol n E.
Proof.
  revert E. induction n as [| n IH]; intros E; simpl; [reflexivity |].
  rewrite update_shift.
  destruct (update M e E) as [E1 | x]; simpl; [| reflexivity].
  replace (E1 + 2 * PI - (E + 2 * PI)) with (E1 - E) by ring.
  destruct (Rlt_dec (Rabs (E1 - E)) tol); [reflexivity | apply IH].
Qed.

(** [X16] [solve_kepler] does not reduce the mean anomaly: a full turn
    added to [M] comes out added to the estimate, with the same
    exceptions. *)
Theorem solve_kepler_full_turn (M e tol : R) (max_iter : nat) :
  solve_kepler_with (M + 2 * PI) e tol max_iter
  = (λ E, E + 2 * PI) <$> solve_kepler_with M e tol max_iter.
Proof. apply iterate_shift. Qed.

Lemma update_opp (M e E : R) :
  update (- M) e (- E) = (λ E1, - E1) <$> update M e E.
Proof.
  unfold update, denominator. rewrite sin_neg, cos_neg.
  destruct (Req_dec_T (1 - e * cos E) 0); [reflexivity |].
  simpl. f_equal. unfold Rdiv. ring.
Qed.

Lemma iterate_opp (M e tol : R) (n : nat) (E : R) :
  iterate (- M) e tol n (- E) = (λ E1, - E1) <$> iterate M e tol n E.
Proof.
  revert E. induction n as [| n IH]; intros E; simpl; [reflexivity |].
  rewrite update_opp.
  destruct (update M e E) as [E1 | x]; simpl; [| reflexivity].
  replace (- E1 - - E) with (- (E1 - E)) by ring. rewrite Rabs_Ropp.
  destruct (Rlt_dec (Rabs (E1 - E)) tol); [reflexivity | apply IH].
Qed.

(** [X17] [solve_kepler] is odd in the mean anomaly: for [-M] it returns
    the opposite of the estimate for [M], with the same exceptions. *)
Theorem solve_kepler_odd (M e tol : R) (max_iter : nat) :
  solve_kepler_with (- M) e tol max_iter
  = (λ E, - E) <$> solve_kepler_with M e tol max_iter.
Proof. apply iterate_opp. Qed.

End KeplerMore.

(** ** More on the orbit propagator *)

Module PropagatorMore.

Import Time Kepler Propagator Pipeline TimeFacts PropagatorFacts KeplerFacts
  TimeMore.


Lemma position_epoch (eph : EphemerisRecord) (t : Q) (p : Q * R * R * R) :
  position eph t = Ok p → sample_epoch p = t.
Proof.
  unfold position.
  destruct (py_div _ _) as [q | ?]; simpl; [| discriminate].
  destruct (py_sqrt q) as [n0 | ?]; simpl; [| discriminate].
  destruct (solve_kepler _ _) as [E | ?]; simpl; [| discriminate].
  destruct (py_sqrt _) as [s | ?]; simpl; [| discriminate].
  intros [= <-]. reflexivity.
Qed.

(** [X18] [compute_positions] returns one sample per epoch, in the order
    of the epochs, each bearing its epoch. *)
Theorem compute_positions_epochs
    (records : list EphemerisRecord) (times : list Q)
    (results : list (Q * R * R * R)) :
  compute_positions records times = Ok results →
  sample_epoch <$> results = times.
Proof.
  unfold compute_positions. revert results.
  induction times as [| t times IH]; simpl; intros results.
  - intros [= <-]. reflexivity.
  - destruct (select records t) as [eph | ?]; simpl; [| discriminate].
    destruct (position eph t) as [p | ?] eqn:Hp; simpl; [| discriminate].
    destruct (mapM _ times) as [ps | ?]; simpl; [| discriminate].
    intros [= <-]. simpl. f_equal; [apply (position_epoch _ _ _ Hp) |].
    apply IH. reflexivity.
Qed.


Local Open Scope R_scope.

Lemma Q2R_square (q : Q) : Q2R (q ^ 2) = Q2R q * Q2R q.
Proof. rewrite <- Q2R_mult. apply Qeq_eqR. reflexivity. Qed.

Lemma Q2R_nonzero (q : Q) : ¬ (q == 0)%Q → Q2R q ≠ 0.
Proof.
  intros Hq H. apply Hq. apply eqR_Qeq. rewrite H. symmetry.
  apply RMicromega.Q2R_0.
Qed.

Lemma MU_pos : 0 < Q2R MU.
Proof. unfold MU, Q2R. simpl. lra. Qed.

Lemma py_div_Ok (x y : R) : y ≠ 0 → py_div x y = Ok (x / y).
Proof.
  intros Hy. unfold py_div. destruct (Req_dec_T y 0); [contradiction |].
  reflexivity.
Qed.

Lemma py_div_zero (x : R) : py_div x 0 = Raise ZeroDivisionError.
Proof.
  unfold py_div. destruct (Req_dec_T 0 0); [reflexivity | contradiction].
Qed.

Lemma py_sqrt_Ok (x : R) : 0 <= x → py_sqrt x = Ok (sqrt x).
Proof.
  intros Hx. unfold py_sqrt. destruct (Rlt_dec x 0); [lra | reflexivity].
Qed.

(** A record with a non-zero [sqrt_a] and an eccentricity in [[0, 1)] has
    a position at every epoch. *)
Lemma position_defined (eph : EphemerisRecord) (t : Q) :
  ¬ (sqrt_a eph == 0)%Q → (0 <= e eph < 1)%Q →
  ∃ p, position eph t = Ok p.
Proof.
  intros Hs [He0 He1]. unfold position. cbv zeta.
  rewrite Q2R_square.
  pose proof (Q2R_nonzero _ Hs) as Hs'.
  set (s := Q2R (sqrt_a eph)) in *.
  assert (Ha : 0 < s * s) by nra.
  assert (Ha3 : 0 < (s * s) ^ 3) by (apply pow_lt; exact Ha).
  pose proof MU_pos as Hmu.
  assert (Hq : 0 < Q2R MU / (s * s) ^ 3)
    by (apply Rdiv_lt_0_compat; assumption).
  rewrite (py_div_Ok _ _ (Rgt_not_eq _ _ Ha3)). cbn [mbind result_bind].
  rewrite (py_sqrt_Ok _ (Rlt_le _ _ Hq)). cbn [mbind result_bind].
  apply Qle_Rle in He0. apply Qlt_Rlt in He1.
  rewrite RMicromega.Q2R_0 in He0. rewrite RMicromega.Q2R_1 in He1.
  set (ec := Q2R (e eph)) in *.
  match goal with |- context [solve_kepler ?M ec] =>
    destruct (iterate_defined M ec default_tol default_max_iter M
                (conj He0 He1)) as [E HE];
    change (iterate M ec default_tol default_max_iter M)
      with (solve_kepler M ec) in HE; rewrite HE
  end.
  cbn [mbind result_bind].
  rewrite py_sqrt_Ok by nra. cbn [mbind result_bind].
  eauto.
Qed.

Lemma compute_positions_defined
    (records : list EphemerisRecord) (times : list Q) :
  records ≠ [] →
  Forall (λ r, ¬ (sqrt_a r == 0)%Q ∧ (0 <= e r < 1)%Q) records →
  ∃ results,
    compute_positions records times = Ok results
    ∧ length results = length times.
Proof.
  intros Hne Hvalid. unfold compute_positions.
  induction times as [| t times (ps & Hps & Hlen)]; simpl; [eauto |].
  destruct (py_min_first (distance t) records Hne)
    as (i & eph & Hsel & Hi & _).
  fold (select records t) in Hsel. rewrite Hsel. simpl.
  assert (Hin : eph ∈ records) by (apply list_elem_of_lookup; eauto).
  rewrite Forall_forall in Hvalid. destruct (Hvalid eph Hin) as [Hs He].
  destruct (position_defined eph t Hs He) as [p Hp].
  rewrite Hp, Hps. simpl. exists (p :: ps). simpl. auto.
Qed.

(** [X19] On a non-empty sequence of records of ordinary magnitude
    ([sqrt_a] between [1e-3] and [1e6] in magnitude, eccentricity in
    [[0, 1)], every other element at most [1e9] in magnitude) and epochs
    at most [1e9] in magnitude, [compute_positions] raises nothing: it
    returns a sample for every epoch. *)
Theorem compute_positions_total
    (records : list EphemerisRecord) (times : list Q) :
  records ≠ [] →
  Forall Ranges.ordinary records →
  Forall (λ t, (Qabs t <= Ranges.magnitude)%Q) times →
  ∃ results,
    compute_positions records times = Ok results
    ∧ length results = length times.
Proof.
  intros Hne Hord _. apply compute_positions_defined; [exact Hne |].
  apply (Forall_impl _ _ _ Hord). intros r ((Hs & _) & He & _).
  split; [| exact He].
  intros H0. rewrite H0 in Hs. vm_compute in Hs. apply Hs. reflexivity.
Qed.

Lemma compute_positions_total_witness :
  ∃ results,
    compute_positions Samples.tied_records [3600%Q; 7200%Q] = Ok results
    ∧ length results = length [3600%Q; 7200%Q].
Proof.
  apply compute_positions_total; [discriminate | |].
  - repeat constructor; vm_compute; discriminate.
  - repeat constructor; vm_compute; discriminate.
Defined.

Lemma compute_positions_epochs_witness :
  ∃ results,
    compute_positions Samples.tied_records [3600%Q; 7200%Q] = Ok results
    ∧ sample_epoch <$> results = [3600%Q; 7200%Q].
Proof.
  destruct (compute_positions_defined Samples.tied_records
              [3600%Q; 7200%Q]) as (results & Hres & _);
    [discriminate | |].
  - repeat constructor; simpl; try lra.
    all: intros H; vm_compute in H; discriminate.
  - exists results. split; [exact Hres |].
    apply (compute_positions_epochs _ _ _ Hres).
Defined.

(** [X20] A selected record whose [sqrt_a] is zero makes
    [compute_positions] raise [ZeroDivisionError], in the division of
    [MU] by the cube of the semi-major axis. *)
Theorem compute_positions_zero_axis
    (records : list EphemerisRecord) (t : Q) (times : list Q)
    (eph : EphemerisRecord) :
  select records t = Ok eph →
  (sqrt_a eph == 0)%Q →
  compute_positions records (t :: times) = Raise ZeroDivisionError.
Proof.
  intros Hsel Hs. unfold compute_positions. simpl. rewrite Hsel. simpl.
  unfold position. cbv zeta. rewrite Q2R_square.
  apply Qeq_eqR in Hs. rewrite RMicromega.Q2R_0 in Hs. rewrite Hs.
  replace ((0 * 0) ^ 3) with 0 by ring.
  rewrite py_div_zero. reflexivity.
Qed.

Lemma compute_positions_zero_axis_witness :
  compute_positions [Samples2.degenerate_record] [0%Q] = Raise ZeroDivisionError.
Proof.
  apply (compute_positions_zero_axis [Samples2.degenerate_record] 0 []
           Samples2.degenerate_record); reflexivity.
Defined.

Lemma rotation_norm (xp yp i Om : R) :
  (xp * cos Om - yp * cos i * sin Om) ^ 2
  + (xp * sin Om + yp * cos i * cos Om) ^ 2
  + (yp * sin i) ^ 2
  = xp ^ 2 + yp ^ 2.
Proof.
  pose proof (sin2_cos2 Om) as H1. pose proof (sin2_cos2 i) as H2.
  unfold Rsqr in *.
  replace ((xp * cos Om - yp * cos i * sin Om) ^ 2
           + (xp * sin Om + yp * cos i * cos Om) ^ 2 + (yp * sin i) ^ 2)
    with ((xp ^ 2 + yp ^ 2 * (cos i * cos i))
            * (sin Om * sin Om + cos Om * cos Om)
          + yp ^ 2 * (sin i * sin i)) by ring.
  rewrite H1.
  replace ((xp ^ 2 + yp ^ 2 * (cos i * cos i)) * 1 + yp ^ 2 * (sin i * sin i))
    with (xp ^ 2 + yp ^ 2 * (sin i * sin i + cos i * cos i)) by ring.
  rewrite H2. ring.
Qed.

Lemma polar_norm (r u : R) : (r * cos u) ^ 2 + (r * sin u) ^ 2 = r ^ 2.
Proof.
  pose proof (sin2_cos2 u) as H. unfold Rsqr in H.
  replace ((r * cos u) ^ 2 + (r * sin u) ^ 2)
    with (r ^ 2 * (sin u * sin u + cos u * cos u)) by ring.
  rewrite H. ring.
Qed.

Lemma position_sample (eph : EphemerisRecord) (t : Q) :
  ¬ (sqrt_a eph == 0)%Q → (0 <= e eph < 1)%Q →
  ∃ x y z, position eph t = Ok (t, x, y, z).
Proof.
  intros Hs He. destruct (position_defined eph t Hs He) as [p Hp].
  pose proof (position_epoch eph t p Hp) as Ht.
  destruct p as [[[t' x] y] z]. simpl in Ht. subst t'. eauto.
Qed.

(** [X21] On a circular orbit without radial harmonics ([e], [Crs] and
    [Crc] zero) every position that is computed is at the distance
    [sqrt_a^2] from the centre of the Earth, whatever the epoch and the
    other elements. *)
Theorem circular_orbit_radius
    (eph : EphemerisRecord) (t t' : Q) (x y z : R) :
  (e eph == 0)%Q → (Crs eph == 0)%Q → (Crc eph == 0)%Q →
  position eph t = Ok (t', x, y, z) →
  x ^ 2 + y ^ 2 + z ^ 2 = (Q2R (sqrt_a eph) ^ 2) ^ 2.
Proof.
  intros He Hrs Hrc. unfold position.
  apply Qeq_eqR in He, Hrs, Hrc. rewrite RMicromega.Q2R_0 in He, Hrs, Hrc.
  cbv zeta. rewrite He, Hrs, Hrc, Q2R_square.
  destruct (py_div _ _) as [q | ?]; cbn [mbind result_bind];
    [| discriminate].
  destruct (py_sqrt q) as [n0 | ?]; cbn [mbind result_bind];
    [| discriminate].
  destruct (solve_kepler _ _) as [E | ?]; cbn [mbind result_bind];
    [| discriminate].
  destruct (py_sqrt _) as [s | ?]; cbn [mbind result_bind];
    [| discriminate].
  intros [= _ <- <- <-].
  rewrite rotation_norm, polar_norm. ring.
Qed.

Lemma circular_orbit_radius_witness :
  ∃ x y z,
    position (Samples.record_at 7200) 3600 = Ok (3600%Q, x, y, z)
    ∧ x ^ 2 + y ^ 2 + z ^ 2
      = (Q2R (sqrt_a (Samples.record_at 7200)) ^ 2) ^ 2.
Proof.
  destruct (position_sample (Samples.record_at 7200) 3600)
    as (x & y & z & Hp).
  - intros H. vm_compute in H. discriminate.
  - simpl. lra.
  - exists x, y, z. split; [exact Hp |].
    apply (circular_orbit_radius (Samples.record_at 7200) 3600 3600 x y z);
      [reflexivity | reflexivity | reflexivity | exact Hp].
Defined.

(** [X22] With a zero inclination ([i0], [idot], [Cis] and [Cic] zero)
    every position that is computed lies in the equatorial plane: its [z]
    is 0. *)
Theorem zero_inclination_equatorial
    (eph : EphemerisRecord) (t t' : Q) (x y z : R) :
  (i0 eph == 0)%Q → (idot eph == 0)%Q → (Cis eph == 0)%Q →
  (Cic eph == 0)%Q →
  position eph t = Ok (t', x, y, z) →
  z = 0.
Proof.
  intros Hi0 Hid His Hic. unfold position.
  apply Qeq_eqR in Hi0, Hid, His, Hic.
  rewrite RMicromega.Q2R_0 in Hi0, Hid, His, Hic.
  cbv zeta. rewrite Hi0, Hid, His, Hic.
  destruct (py_div _ _) as [q | ?]; cbn [mbind result_bind];
    [| discriminate].
  destruct (py_sqrt q) as [n0 | ?]; cbn [mbind result_bind];
    [| discriminate].
  destruct (solve_kepler _ _) as [E | ?]; cbn [mbind result_bind];
    [| discriminate].
  destruct (py_sqrt _) as [s | ?]; cbn [mbind result_bind];
    [| discriminate].
  intros [= _ _ _ <-].
  match goal with |- _ * sin ?a = 0 =>
    replace a with 0 by ring
  end.
  rewrite sin_0. ring.
Qed.

Lemma zero_inclination_equatorial_witness :
  ∃ x y z,
    position (Samples.record_at 7200) 3600 = Ok (3600%Q, x, y, z)
    ∧ z = 0.
Proof.
  destruct (position_sample (Samples.record_at 7200) 3600)
    as (x & y & z & Hp).
  - intros H. vm_compute in H. discriminate.
  - simpl. lra.
  - exists x, y, z. split; [exact Hp |].
    apply (zero_inclination_equatorial
             (Samples.record_at 7200) 3600 3600 x y z);
      [reflexivity | reflexivity | reflexivity | reflexivity | exact Hp].
Defined.

Local Close Scope R_scope.

(** [X23] The week-rollover correction keeps the time difference modulo
    one week: [tk] and [t - toe] have the same remainder by 604800. *)
Theorem time_from_ephemeris_modulo_week (t toe : Q) :
  (py_mod (time_from_ephemeris t toe) 604800
   == py_mod (t - toe) 604800)%Q.
Proof.
  unfold time_from_ephemeris.
  destruct (Qltb 302400 (t - toe)).
  - destruct (Qltb (t - toe - 604800) (-302400)).
    + apply py_mod_proper. ring.
    + rewrite <- (py_mod_shift (t - toe - 604800) 604800 1) by lra.
      apply py_mod_proper. change (inject_Z 1) with 1%Q. ring.
  - destruct (Qltb (t - toe) (-302400)).
    + rewrite <- (py_mod_shift (t - toe) 604800 1) by lra.
      apply py_mod_proper. change (inject_Z 1) with 1%Q. ring.
    + reflexivity.
Qed.

End PropagatorMore.
